(** * gcsfuse: buffered-read download task and stale temporary object reaper

    A shallow embedding of
    - [DownloadTask.Execute] (package [bufferedread]) and
    - [garbageCollectOnce] / [garbageCollect] (package [gcsx]),
    with the properties their specification states about them.

    Go integers are [Z] with the wrap-around of their width written out,
    byte slices are [list byte], strings are [string], Go errors are an
    inductive type with the [Unwrap] chain that [errors.Is] and [errors.As]
    walk, and the calls a function makes on its collaborators (block,
    bucket, metrics, logger) are recorded, in order, in a trace. *)

From Stdlib Require Import ZArith Lia.
From Stdlib.Strings Require Import Byte.
From stdpp Require Import base option list strings gmap fin_maps.

Local Open Scope Z_scope.

(** ** Machine integers *)

Definition uint64 (x : Z) : Z := x mod 2 ^ 64.
Definition int64 (x : Z) : Z := (x + 2 ^ 63) mod 2 ^ 64 - 2 ^ 63.

Definition is_int64 (x : Z) : Prop := - 2 ^ 63 <= x < 2 ^ 63.
Definition is_uint64 (x : Z) : Prop := 0 <= x < 2 ^ 64.

Definition len {A} (l : list A) : Z := Z.of_nat (length l).

(** ** Go errors *)

(** Modelled from the spec: the error types [gcs.NotFoundError] and
    [gcsfuse_errors.FileClobberedError], whose declarations are not among
    the sources; the other constructors are errors of Go's standard
    library.  [fmt_Errorf] is an error built from a format with the verb
    [%w], the arguments of its other verbs and the wrapped error; it and
    [FileClobberedError] expose the error they wrap through [Unwrap], which
    [gcs.NotFoundError] does not. *)
Inductive error : Type :=
| context_Canceled
| context_DeadlineExceeded
| io_EOF
| gcs_NotFoundError (Err : error)
| FileClobberedError (Err : error) (ObjectName : string)
| fmt_Errorf (format : string) (args : list string) (wrapped : error)
| errors_New (text : string).

#[global] Instance error_eq_dec : EqDecision error.
Proof. solve_decision. Defined.

Definition Unwrap (e : error) : option error :=
  match e with
  | fmt_Errorf _ _ w => Some w
  | FileClobberedError w _ => Some w
  | _ => None
  end.

(** The chain [e, Unwrap e, Unwrap (Unwrap e), ...] that [errors.Is] and
    [errors.As] walk. *)
Fixpoint chain (e : error) : list error :=
  e :: match e with
       | fmt_Errorf _ _ w => chain w
       | FileClobberedError w _ => chain w
       | _ => []
       end.

Definition errors_Is (err target : error) : bool :=
  existsb (fun e => bool_decide (e = target)) (chain err).

Definition is_NotFoundError (e : error) : bool :=
  match e with gcs_NotFoundError _ => true | _ => false end.

Definition is_FileClobberedError (e : error) : bool :=
  match e with FileClobberedError _ _ => true | _ => false end.

(** [errors.As(err, &notFoundError)] with [notFoundError : *gcs.NotFoundError]. *)
Definition errors_As_NotFoundError (err : error) : bool :=
  existsb is_NotFoundError (chain err).

Definition errors_As_FileClobberedError (err : error) : bool :=
  existsb is_FileClobberedError (chain err).

(** A Go result [(value, error)]. *)
Inductive result (A : Type) : Type :=
| Ok (a : A)
| Fail (e : error).
Arguments Ok {A} a.
Arguments Fail {A} e.

(** ** Package gcs: objects and requests *)

(** Modelled from the spec: the types [gcs.MinObject], [gcs.ByteRange],
    [gcs.ReadObjectRequest] and [gcs.StorageReader], whose declarations are
    not among the sources, with the fields the two functions read or
    write. *)

Module MinObject.
Record t : Type := mk {
  Name : string;
  Size : Z;                (* uint64 *)
  Generation : Z;          (* int64 *)
  MetaGeneration : Z;      (* int64 *)
  ContentEncoding : string;
  Updated : Z              (* time.Time, wall clock, nanoseconds *)
}.

Definition HasContentEncodingGzip (o : t) : bool :=
  bool_decide (ContentEncoding o = "gzip").
End MinObject.

Module ByteRange.
Record t : Type := mk { Start : Z; Limit : Z }.
End ByteRange.

Module ReadObjectRequest.
Record t : Type := mk {
  Name : string;
  Generation : Z;
  Range : option ByteRange.t;
  ReadCompressed : bool;
  ReadHandle : list byte
}.
End ReadObjectRequest.

(** A [gcs.StorageReader]: the chunks its successive [Read] calls return,
  the error [Read] returns once they are used up ([None] stands for
  [io.EOF]), and the read handle it reports. *)
Module StorageReader.
Record t : Type := mk {
  reads : list (list byte);
  read_err : option error;
  ReadHandle : list byte
}.
End StorageReader.

(** ** Package block *)

Inductive BlockState : Type :=
| BlockStateInProgress
| BlockStateDownloaded
| BlockStateDownloadFailed.

Module BlockStatus.
Record t : Type := mk { State : BlockState; Err : option error }.
End BlockStatus.

(** Modelled from the spec: [block.PrefetchBlock], whose declaration is not
  among the sources.  A block has an absolute start offset, a fixed
  capacity and a buffer that [Write] appends to; [Write] never accepts
  more bytes than the capacity. *)
Module PrefetchBlock.
Record t : Type := mk {
  AbsStartOff : Z;         (* int64 *)
  Cap : Z;                 (* int64 *)
  buffer : list byte
}.

Definition Write (b : t) (p : list byte) : t * (Z * option error) :=
  if Cap b <? len (buffer b) + len p
  then (b, (0, Some (errors_New "received data more than capacity of the block")))
  else (mk (AbsStartOff b) (Cap b) (buffer b ++ p), (len p, None)).
End PrefetchBlock.

(** ** Package io (Go's standard library) *)

(** [io.Copy(dst, io.LimitReader(src, N))], the loop of [io.copyBuffer]:
    a [LimitedReader] returns [io.EOF] once [N <= 0] and otherwise passes on
    at most [N] bytes of what the underlying [Read] returns; every chunk
    read is written to [dst]; a write error ends the copy with that error,
    [io.EOF] ends it with no error, another read error ends it with that
    error. *)
Fixpoint io_Copy_LimitReader (dst : PrefetchBlock.t)
    (reads : list (list byte)) (read_err : option error) (N : Z)
    (written : Z) : PrefetchBlock.t * (Z * option error) :=
  if N <=? 0 then (dst, (written, None))
  else
    match reads with
    | [] => (dst, (written, read_err))
    | p :: reads' =>
        let p := take (Z.to_nat N) p in
        if len p =? 0 then io_Copy_LimitReader dst reads' read_err N written
        else
          match PrefetchBlock.Write dst p with
          | (dst', (nw, Some ew)) => (dst', (written + nw, Some ew))
          | (dst', (nw, None)) =>
              io_Copy_LimitReader dst' reads' read_err (N - len p) (written + nw)
          end
    end.

(** [io.CopyN]. *)
Definition io_CopyN (dst : PrefetchBlock.t) (src : StorageReader.t) (n : Z)
    : PrefetchBlock.t * (Z * option error) :=
  let '(dst', (written, err)) :=
    io_Copy_LimitReader dst (StorageReader.reads src)
      (StorageReader.read_err src) n 0 in
  if written =? n then (dst', (n, None))
  else if (written <? n) && bool_decide (err = None)
       then (dst', (written, Some io_EOF))
       else (dst', (written, err)).

(** ** Package bufferedread: the download task *)

Module Context.
(** [Err] is what [ctx.Err()] returns when the task's deferred function
    asks: [None], [context.Canceled] or [context.DeadlineExceeded]. *)
Record t : Type := mk { Err : option error }.
End Context.

(** What a task does to its collaborators, in the order it does it. *)
Inductive event : Type :=
| logger_Tracef (format : string) (object : string) (blockId : Z)
| logger_Errorf (format : string) (object : string) (blockId : Z)
| NewReaderWithReadHandle (req : ReadObjectRequest.t)
| newReader_Close
| readHandleUpdater_call (handle : list byte)
| NotifyReady (st : BlockStatus.t)
| BufferedReadDownloadBlockLatency (dur : Z) (status : string)
| BufferedReadScheduledBlockCount (inc : Z) (status : string).

Module DownloadTask.
Record t : Type := mk {
  object : MinObject.t;
  (* the bucket's answer to the ranged read the task issues *)
  bucket : ReadObjectRequest.t -> result StorageReader.t;
  block : PrefetchBlock.t;
  ctx : Context.t;
  readHandle : list byte;
  (* [true] when the task was given a non-nil [readHandleUpdater] *)
  readHandleUpdater : bool;
  (* [time.Since(stime)] as the deferred function measures it *)
  dur : Z
}.
End DownloadTask.

Import DownloadTask.

(** [blockId := startOff / dt.block.Cap()], line 72: a division of two
    [int64], which panics at run time when the capacity is zero ([None]). *)
Definition blockId (dt : DownloadTask.t) : option Z :=
  let startOff := PrefetchBlock.AbsStartOff (block dt) in
  if PrefetchBlock.Cap (block dt) =? 0 then None
  else Some (int64 (startOff ÷ PrefetchBlock.Cap (block dt))).

(** The byte range [Execute] asks for: lines 96-100. *)
Definition range_start (dt : DownloadTask.t) : Z :=
  uint64 (PrefetchBlock.AbsStartOff (block dt)).

Definition range_end (dt : DownloadTask.t) : Z :=
  let start := range_start dt in
  let end_ := uint64 (start + uint64 (PrefetchBlock.Cap (block dt))) in
  if MinObject.Size (object dt) <? end_ then MinObject.Size (object dt) else end_.

Definition request (dt : DownloadTask.t) : ReadObjectRequest.t :=
  ReadObjectRequest.mk
    (MinObject.Name (object dt))
    (MinObject.Generation (object dt))
    (Some (ByteRange.mk (range_start dt) (range_end dt)))
    (MinObject.HasContentEncodingGzip (object dt))
    (readHandle dt).

(** The count handed to [io.CopyN]: [int64(end-start)], line 124. *)
Definition copy_count (dt : DownloadTask.t) : Z :=
  int64 (uint64 (range_end dt - range_start dt)).

(** The body of [Execute] from line 96 on: the block afterwards, the calls
    made (the deferred [newReader.Close()] included, at the point where it
    runs), and the value of [err] when the function returns. *)
Definition Execute_body (dt : DownloadTask.t)
    : PrefetchBlock.t * list event * option error :=
  match bucket dt (request dt) with
  | Fail err =>
      if errors_As_NotFoundError err
      then (block dt, [NewReaderWithReadHandle (request dt)],
            Some (FileClobberedError err (MinObject.Name (object dt))))
      else (block dt, [NewReaderWithReadHandle (request dt)],
            Some (fmt_Errorf "DownloadTask.Execute: while reader-creations: %w" [] err))
  | Ok newReader =>
      let '(blk, (_, err)) := io_CopyN (block dt) newReader (copy_count dt) in
      match err with
      | Some err =>
          (blk, [NewReaderWithReadHandle (request dt); newReader_Close],
           Some (fmt_Errorf "DownloadTask.Execute: while data-copy: %w" [] err))
      | None =>
          (blk,
           [NewReaderWithReadHandle (request dt)]
           ++ (if readHandleUpdater dt
               then [readHandleUpdater_call (StorageReader.ReadHandle newReader)]
               else [])
           ++ [newReader_Close],
           None)
      end
  end.

(** Whether the deferred function takes the branch of line 83. *)
Definition is_cancellation (dt : DownloadTask.t) (err : error) : bool :=
  errors_Is err context_Canceled
  && bool_decide (Context.Err (ctx dt) = Some context_Canceled).

(** The outcome label the deferred function chooses: lines 79-91. *)
Definition status_of (dt : DownloadTask.t) (err : option error) : string :=
  match err with
  | None => "successful"
  | Some err => if is_cancellation dt err then "cancelled" else "failed"
  end.

(** The deferred function of lines 76-94. *)
Definition Execute_deferred (dt : DownloadTask.t) (id : Z)
    (err : option error) : list event :=
  let name := MinObject.Name (object dt) in
  let status := status_of dt err in
  (match err with
   | None =>
       [logger_Tracef "Download: -> block (%s, %v) Ok(%v)." name id;
        NotifyReady (BlockStatus.mk BlockStateDownloaded None)]
   | Some e =>
       if is_cancellation dt e
       then [logger_Tracef "Download: -> block (%s, %v) cancelled: %v." name id;
             NotifyReady (BlockStatus.mk BlockStateDownloadFailed (Some e))]
       else [logger_Errorf "Download: -> block (%s, %v) failed: %v." name id;
             NotifyReady (BlockStatus.mk BlockStateDownloadFailed (Some e))]
   end)
  ++ [BufferedReadDownloadBlockLatency (dur dt) status;
      BufferedReadScheduledBlockCount 1 status].

Module Outcome.
Record t : Type := mk {
  block : PrefetchBlock.t;     (* the block once [Execute] has returned *)
  err : option error;          (* [err] as the deferred function saw it *)
  trace : list event
}.
End Outcome.

(** [Execute]; [None] is the run-time panic of line 72, which happens
    before the deferred function is registered. *)
Definition Execute (dt : DownloadTask.t) : option Outcome.t :=
  match blockId dt with
  | None => None
  | Some id =>
      let '(blk, calls, err) := Execute_body dt in
      Some (Outcome.mk blk err
              ([logger_Tracef "Download: <- block (%s, %v)."
                  (MinObject.Name (object dt)) id]
               ++ calls ++ Execute_deferred dt id err))
  end.

(** Projections of a trace. *)
Definition notifications (tr : list event) : list BlockStatus.t :=
  omap (fun ev => match ev with NotifyReady st => Some st | _ => None end) tr.

Definition latency_labels (tr : list event) : list string :=
  omap (fun ev => match ev with
                  | BufferedReadDownloadBlockLatency _ s => Some s
                  | _ => None end) tr.

Definition count_labels (tr : list event) : list string :=
  omap (fun ev => match ev with
                  | BufferedReadScheduledBlockCount _ s => Some s
                  | _ => None end) tr.

Definition handle_updates (tr : list event) : list (list byte) :=
  omap (fun ev => match ev with
                  | readHandleUpdater_call h => Some h
                  | _ => None end) tr.

Definition requests (tr : list event) : list ReadObjectRequest.t :=
  omap (fun ev => match ev with
                  | NewReaderWithReadHandle r => Some r
                  | _ => None end) tr.

(** Bytes the task added to its block. *)
Definition bytes_written (dt : DownloadTask.t) (out : Outcome.t) : Z :=
  len (PrefetchBlock.buffer (Outcome.block out))
  - len (PrefetchBlock.buffer (block dt)).

(** ** Package time (Go's standard library) *)

Definition Nanosecond : Z := 1.
Definition Second : Z := 1000000000 * Nanosecond.
Definition Minute : Z := 60 * Second.
Definition Hour : Z := 60 * Minute.

Definition minDuration : Z := - 2 ^ 63.
Definition maxDuration : Z := 2 ^ 63 - 1.

(** [t.Sub(u)] on wall-clock readings: the difference as a [Duration],
    replaced by the largest or smallest [Duration] when it does not fit. *)
Definition Time_Sub (t u : Z) : Z :=
  if maxDuration <? t - u then maxDuration
  else if t - u <? minDuration then minDuration
  else t - u.

(** ** Package gcsx: the reaper of stale temporary objects *)

Module DeleteObjectRequest.
Record t : Type := mk {
  Name : string;
  Generation : Z;
  MetaGenerationPrecondition : option Z
}.
End DeleteObjectRequest.

(** Modelled from the spec: the [gcs.Bucket] the reaper works on, whose
    declaration is not among the sources.  A bucket holds its objects by
    name, lists them by prefix and deletes them by name; generation 0 in a
    delete request stands for the latest generation.  [list_fault] and
    [delete_fault] are the failures of the backend: a listing that breaks
    off with an error after a number of objects, and names whose deletion
    is refused.  [deletes] records the delete requests received. *)
Module Bucket.
Record t : Type := mk {
  objects : gmap string MinObject.t;
  list_fault : option (nat * error);
  delete_fault : gmap string error;
  deletes : list DeleteObjectRequest.t
}.

Definition named (entry : string * MinObject.t) : MinObject.t :=
  MinObject.mk entry.1 (MinObject.Size entry.2) (MinObject.Generation entry.2)
    (MinObject.MetaGeneration entry.2) (MinObject.ContentEncoding entry.2)
    (MinObject.Updated entry.2).

(** Every object under the prefix. *)
Definition under (prefix : string) (b : t) : list MinObject.t :=
  named <$> filter (fun entry => String.prefix prefix entry.1 = true)
                   (map_to_list (objects b)).

Definition DeleteObject (b : t) (req : DeleteObjectRequest.t)
    : t * option error :=
  let b := mk (objects b) (list_fault b) (delete_fault b) (deletes b ++ [req]) in
  let name := DeleteObjectRequest.Name req in
  match delete_fault b !! name with
  | Some e => (b, Some e)
  | None =>
      match objects b !! name with
      | None => (b, Some (gcs_NotFoundError (errors_New "object does not exist")))
      | Some o =>
          if negb (DeleteObjectRequest.Generation req =? 0)
             && negb (DeleteObjectRequest.Generation req =? MinObject.Generation o)
          then (b, Some (gcs_NotFoundError (errors_New "generation does not exist")))
          else
            match DeleteObjectRequest.MetaGenerationPrecondition req with
            | Some m =>
                if m =? MinObject.MetaGeneration o
                then (mk (delete name (objects b)) (list_fault b)
                         (delete_fault b) (deletes b), None)
                else (b, Some (errors_New "precondition failed"))
            | None =>
                (mk (delete name (objects b)) (list_fault b)
                    (delete_fault b) (deletes b), None)
            end
      end
  end.
End Bucket.

(** Modelled from the spec: [storageutil.ListPrefix], which is not among the
    sources.  It writes every object under the prefix to the channel, or,
    when the listing breaks off, the objects listed until then, and returns
    the listing error. *)
Definition ListPrefix (bucket : Bucket.t) (prefix : string)
    : list MinObject.t * option error :=
  match Bucket.list_fault bucket with
  | None => (Bucket.under prefix bucket, None)
  | Some (n, e) => (take n (Bucket.under prefix bucket), Some e)
  end.

(** What a run reads from its surroundings: the clock reading of line 53,
    and, for a run whose listing fails, how many of the names already
    forwarded the delete stage handles before the cancellation of the
    shared context stops the pipeline. *)
Module Run.
Record t : Type := mk { now : Z; drained : nat }.
End Run.

Definition stalenessThreshold : Z := 30 * Minute.

(** The list stage, lines 41-50: what goes into [minObjects], and the
    error the goroutine returns. *)
Definition list_stage (bucket : Bucket.t) (tmpObjectPrefix : string)
    : list MinObject.t * option error :=
  match ListPrefix bucket tmpObjectPrefix with
  | (minObjects, Some err) =>
      (minObjects, Some (fmt_Errorf "ListPrefix: %w" [] err))
  | (minObjects, None) => (minObjects, None)
  end.

(** The filter stage, lines 55-72: the names sent to [staleNames]. *)
Fixpoint filter_stage (now : Z) (minObjects : list MinObject.t) : list string :=
  match minObjects with
  | [] => []
  | o :: minObjects' =>
      if Time_Sub now (MinObject.Updated o) <? stalenessThreshold
      then filter_stage now minObjects'
      else MinObject.Name o :: filter_stage now minObjects'
  end.

(** The delete stage, lines 75-93. *)
Fixpoint delete_stage (bucket : Bucket.t) (staleNames : list string)
    (objectsDeleted : Z) : Bucket.t * (Z * option error) :=
  match staleNames with
  | [] => (bucket, (objectsDeleted, None))
  | name :: staleNames' =>
      match Bucket.DeleteObject bucket (DeleteObjectRequest.mk name 0 None) with
      | (bucket', Some err) =>
          (bucket',
           (objectsDeleted, Some (fmt_Errorf "DeleteObject(%q): %w" [name] err)))
      | (bucket', None) =>
          delete_stage bucket' staleNames' (uint64 (objectsDeleted + 1))
      end
  end.

(** [garbageCollectOnce].  The three stages run concurrently on an
    [errgroup]; [group.Wait] returns the first error any of them returned.
    While the listing succeeds the delete stage receives every stale name.
    When the listing fails, the group's context is cancelled; the delete
    stage has by then handled [Run.drained] of the names, and an error it met
    among them came first. *)
Definition garbageCollectOnce (run : Run.t) (tmpObjectPrefix : string)
    (bucket : Bucket.t) : Bucket.t * (Z * option error) :=
  let '(minObjects, list_err) := list_stage bucket tmpObjectPrefix in
  let now := Run.now run in
  let staleNames := filter_stage now minObjects in
  let received :=
    match list_err with
    | None => staleNames
    | Some _ => take (Run.drained run) staleNames
    end in
  let '(bucket', (objectsDeleted, delete_err)) :=
    delete_stage bucket received 0 in
  (bucket', (objectsDeleted,
             match delete_err with
             | Some err => Some err
             | None => list_err
             end)).

(** ** The periodic loop *)

Definition period : Z := 10 * Minute.

(** The case a [select] of the loop takes: the context is done, or the
    ticker has fired; for a tick, the surroundings of the run that follows
    and the time the run takes. *)
Inductive selected : Type :=
| ctx_Done
| ticker_C (run : Run.t) (elapsed : Z).

Inductive loop_event : Type :=
| time_NewTicker (d : Z)
| ticker_Stop
| logger_Info (msg : string)
| logger_Infof_failed (objectsDeleted : Z) (elapsed : Z) (err : error)
| logger_Infof_succeeded (objectsDeleted : Z) (elapsed : Z).

(** The loop of [garbageCollect] over the cases its selects take; [true]
    in the result when the function has returned, [false] when it is
    waiting in the [select] again. *)
Fixpoint garbageCollect_loop (cases : list selected) (tmpObjectPrefix : string)
    (bucket : Bucket.t) : Bucket.t * list loop_event * bool :=
  match cases with
  | [] => (bucket, [], false)
  | ctx_Done :: _ => (bucket, [ticker_Stop], true)
  | ticker_C run elapsed :: cases' =>
      let '(bucket', (objectsDeleted, err)) :=
        garbageCollectOnce run tmpObjectPrefix bucket in
      let line :=
        match err with
        | Some err => logger_Infof_failed objectsDeleted elapsed err
        | None => logger_Infof_succeeded objectsDeleted elapsed
        end in
      let '(bucket'', events, returned) :=
        garbageCollect_loop cases' tmpObjectPrefix bucket' in
      (bucket'',
       logger_Info "Starting a garbage collection run." :: line :: events,
       returned)
  end.

Definition garbageCollect (cases : list selected) (tmpObjectPrefix : string)
    (bucket : Bucket.t) : Bucket.t * list loop_event * bool :=
  let '(bucket', events, returned) :=
    garbageCollect_loop cases tmpObjectPrefix bucket in
  (bucket', time_NewTicker period :: events, returned).

(** ** Notions the properties are stated with *)

(** The four ways the body can end. *)
Inductive path (dt : DownloadTask.t)
    : PrefetchBlock.t * list event * option error -> Prop :=
| path_clobbered e :
    bucket dt (request dt) = Fail e ->
    errors_As_NotFoundError e = true ->
    path dt (block dt, [NewReaderWithReadHandle (request dt)],
             Some (FileClobberedError e (MinObject.Name (object dt))))
| path_open_failed e :
    bucket dt (request dt) = Fail e ->
    errors_As_NotFoundError e = false ->
    path dt (block dt, [NewReaderWithReadHandle (request dt)],
             Some (fmt_Errorf "DownloadTask.Execute: while reader-creations: %w" [] e))
| path_copy_failed rd blk k e :
    bucket dt (request dt) = Ok rd ->
    io_CopyN (block dt) rd (copy_count dt) = (blk, (k, Some e)) ->
    path dt (blk, [NewReaderWithReadHandle (request dt); newReader_Close],
             Some (fmt_Errorf "DownloadTask.Execute: while data-copy: %w" [] e))
| path_success rd blk k :
    bucket dt (request dt) = Ok rd ->
    io_CopyN (block dt) rd (copy_count dt) = (blk, (k, None)) ->
    path dt (blk,
             [NewReaderWithReadHandle (request dt)]
             ++ (if readHandleUpdater dt
                 then [readHandleUpdater_call (StorageReader.ReadHandle rd)]
                 else [])
             ++ [newReader_Close],
             None).

(** The byte range of a block that starts inside its object. *)
Definition block_within_object (dt : DownloadTask.t) : Prop :=
  let off := PrefetchBlock.AbsStartOff (block dt) in
  let cap := PrefetchBlock.Cap (block dt) in
  let size := MinObject.Size (object dt) in
  0 <= off <= size /\ 0 <= cap /\ is_int64 off /\ is_int64 cap /\ is_uint64 size.

Definition is_logger_Errorf (ev : event) : bool :=
  match ev with logger_Errorf _ _ _ => true | _ => false end.

Definition is_stale (now : Z) (o : MinObject.t) : Prop :=
  stalenessThreshold <= now - MinObject.Updated o.

#[global] Instance is_stale_dec now o : Decision (is_stale now o).
Proof. unfold is_stale. apply _. Defined.

Definition delete_request (name : string) : DeleteObjectRequest.t :=
  DeleteObjectRequest.mk name 0 None.

(** What the bucket looks like once the objects named [names] are gone. *)
Definition without (names : list string) (b b' : Bucket.t) : Prop :=
  (forall x, Bucket.objects b' !! x
             = if decide (x ∈ names) then None else Bucket.objects b !! x) /\
  Z.of_nat (size (Bucket.objects b'))
  = Z.of_nat (size (Bucket.objects b)) - len names /\
  Bucket.list_fault b' = Bucket.list_fault b /\
  Bucket.delete_fault b' = Bucket.delete_fault b.

(** Deletable names: distinct, present, and not refused by the backend. *)
Definition deletable (names : list string) (b : Bucket.t) : Prop :=
  NoDup names /\
  forall x, x ∈ names ->
            is_Some (Bucket.objects b !! x) /\ Bucket.delete_fault b !! x = None.

(** The names the filter stage forwards, and those the delete stage
    receives, in a run. *)
Definition forwarded (run : Run.t) (prefix : string) (b : Bucket.t) : list string :=
  filter_stage (Run.now run) (list_stage b prefix).1.

Definition received (run : Run.t) (prefix : string) (b : Bucket.t) : list string :=
  match (list_stage b prefix).2 with
  | None => forwarded run prefix b
  | Some _ => take (Run.drained run) (forwarded run prefix b)
  end.






(** ** Sample tasks, buckets and loops *)

(** The task of the specification's scenario: an object of 10,000 bytes, a
    block of capacity 4,096 at offset 8,192, and a bucket whose reader
    delivers the range in two reads. *)
Definition scenario_task : DownloadTask.t :=
  DownloadTask.mk
    (MinObject.mk "scenario" 10000 1 1 "" 0)
    (fun _ => Ok (StorageReader.mk [repeat x2a 1000; repeat x2b 1000] None [x01]))
    (PrefetchBlock.mk 8192 4096 [])
    (Context.mk None) [] true 3.

(** A block that starts beyond the end of its object: offset 8,192 in an
    object of 100 bytes, with a bucket that still opens a (empty) reader. *)
Definition task_past_object_end : DownloadTask.t :=
  DownloadTask.mk
    (MinObject.mk "short" 100 1 1 "" 0)
    (fun _ => Ok (StorageReader.mk [] None []))
    (PrefetchBlock.mk 8192 4096 [])
    (Context.mk None) [] false 3.

(** A task whose context is cancelled while the bucket is opening the
    reader. *)
Definition cancelled_task : DownloadTask.t :=
  DownloadTask.mk
    (MinObject.mk "abandoned" 10000 1 1 "" 0)
    (fun _ => Fail (fmt_Errorf "rpc: %w" [] context_Canceled))
    (PrefetchBlock.mk 0 4096 [])
    (Context.mk (Some context_Canceled)) [] true 3.

(** A task whose object has disappeared from the bucket. *)
Definition clobbered_task : DownloadTask.t :=
  DownloadTask.mk
    (MinObject.mk "replaced" 10000 1 1 "" 0)
    (fun _ => Fail (gcs_NotFoundError (errors_New "storage: object doesn't exist")))
    (PrefetchBlock.mk 4096 4096 [])
    (Context.mk None) [] true 3.

(** A task whose object disappears while its data is being copied: the
    reader opens, delivers 100 bytes and then reports "not found". *)
Definition vanishing_task : DownloadTask.t :=
  DownloadTask.mk
    (MinObject.mk "vanishing" 10000 1 1 "" 0)
    (fun _ => Ok (StorageReader.mk [repeat x2a 100]
                    (Some (gcs_NotFoundError (errors_New "gone"))) []))
    (PrefetchBlock.mk 4096 4096 [])
    (Context.mk None) [] true 3.

(** Sample buckets.  The run starts at [run_start]; objects are named by
    their age. *)
Definition run_start : Z := 1700000000 * Second.

Definition aged (name : string) (age : Z) : string * MinObject.t :=
  (name, MinObject.mk name 0 1 1 "" (run_start - age)).

Definition three_objects : Bucket.t :=
  Bucket.mk
    (list_to_map [aged ".gcsfuse_tmp/5m" (5 * Minute);
                  aged ".gcsfuse_tmp/31m" (31 * Minute);
                  aged ".gcsfuse_tmp/2h" (2 * Hour)])
    None ∅ [].

Definition boundary_object : Bucket.t :=
  Bucket.mk (list_to_map [aged ".gcsfuse_tmp/30m" (30 * Minute)]) None ∅ [].

(** A bucket of three stale objects whose backend refuses one deletion. *)
Definition refusing_bucket : Bucket.t :=
  Bucket.mk
    (list_to_map [aged ".gcsfuse_tmp/1h" (1 * Hour);
                  aged ".gcsfuse_tmp/2h" (2 * Hour);
                  aged ".gcsfuse_tmp/3h" (3 * Hour)])
    None
    {[ ".gcsfuse_tmp/1h" := errors_New "backend unavailable" ]}
    [].

(** A loop over a bucket whose runs fail: two ticks, then the context is
    done, then a tick that is never served. *)
Definition failing_cases : list selected :=
  [ticker_C (Run.mk run_start 0) 7;
   ticker_C (Run.mk (run_start + period) 0) 7;
   ctx_Done;
   ticker_C (Run.mk (run_start + 2 * period) 0) 7].

(** ** Further notions: the download task *)

Definition is_newReader_Close (ev : event) : bool :=
  match ev with newReader_Close => true | _ => false end.

(** How often the reader was closed. *)
Definition closes (tr : list event) : nat :=
  length (List.filter is_newReader_Close tr).

(** The events that report an outcome: the notification and the two
    metrics. *)
Definition is_report (ev : event) : bool :=
  match ev with
  | NotifyReady _
  | BufferedReadDownloadBlockLatency _ _
  | BufferedReadScheduledBlockCount _ _ => true
  | _ => false
  end.

(** Everything a reader would deliver if read to its end. *)
Definition stream (rd : StorageReader.t) : list byte :=
  concat (StorageReader.reads rd).

(** The block has room for what the copy will ask it to take. *)
Definition has_room (dt : DownloadTask.t) (rd : StorageReader.t) : Prop :=
  len (PrefetchBlock.buffer (block dt))
  + Z.min (Z.max (copy_count dt) 0) (len (stream rd))
  <= PrefetchBlock.Cap (block dt).

(** A task whose stream ends after 100 of the 4,096 bytes asked for. *)
Definition truncated_task : DownloadTask.t :=
  DownloadTask.mk
    (MinObject.mk "truncated" 10000 1 1 "" 0)
    (fun _ => Ok (StorageReader.mk [repeat x2a 60; []; repeat x2b 40] None []))
    (PrefetchBlock.mk 4096 4096 [])
    (Context.mk None) [] true 3.

(** A task whose context has run into its deadline. *)
Definition timed_out_task : DownloadTask.t :=
  DownloadTask.mk
    (MinObject.mk "slow" 10000 1 1 "" 0)
    (fun _ => Fail (fmt_Errorf "rpc: %w" [] context_DeadlineExceeded))
    (PrefetchBlock.mk 0 4096 [])
    (Context.mk (Some context_DeadlineExceeded)) [] true 3.


Definition is_NotifyReady (ev : event) : bool :=
  match ev with NotifyReady _ => true | _ => false end.

(** The first element of a list that passes a test, with what comes before
    and after it. *)
Fixpoint split_first {A} (P : A -> bool) (l : list A)
    : option (list A * A * list A) :=
  match l with
  | [] => None
  | y :: l' =>
      if P y then Some ([], y, l')
      else match split_first P l' with
           | Some (a, x, b) => Some (y :: a, x, b)
           | None => None
           end
  end.

(** ** Further sample buckets *)


(** A bucket with a stale object outside the prefix and a fresh one under
    it, on a backend that refuses every deletion. *)
Definition nothing_to_collect : Bucket.t :=
  Bucket.mk
    (list_to_map [aged "data/3h" (3 * Hour);
                  aged ".gcsfuse_tmp/5m" (5 * Minute)])
    None
    {[ "data/3h" := errors_New "forbidden";
       ".gcsfuse_tmp/5m" := errors_New "forbidden" ]}
    [].

(** ** Package gcsx: the monitor of TCP connections *)

Module TCPStats.
Record t : Type := mk { Active : Z; Idle : Z }.   (* int *)
End TCPStats.

Definition newline : Ascii.ascii := Ascii.ascii_of_nat 10.

(** [strings.Split(s, sep)] (Go's standard library) for a separator of one
    byte, as in the call of line 168: the pieces of [s] between the
    separators, one more than there are separators. *)
Fixpoint strings_Split (s : string) (sep : Ascii.ascii) : list string :=
  match s with
  | EmptyString => [EmptyString]
  | String c s' =>
      if Ascii.eqb c sep then EmptyString :: strings_Split s' sep
      else match strings_Split s' sep with
           | piece :: pieces => String c piece :: pieces
           | [] => [String c EmptyString]
           end
  end.

(** [strings.Fields] (Go's standard library) on ASCII text, such as the
    kernel writes to /proc/net/tcp: the maximal runs of bytes that are not
    one of tab, newline, vertical tab, form feed, carriage return and
    space.  The monitor's functions take the field splitter as a parameter;
    this instance serves to run them. *)
Definition asciiSpace (c : Ascii.ascii) : bool :=
  match Ascii.nat_of_ascii c with
  | 9%nat | 10%nat | 11%nat | 12%nat | 13%nat | 32%nat => true
  | _ => false
  end.

Fixpoint Fields_ascii_from (s field : string) : list string :=
  match s with
  | EmptyString => match field with EmptyString => [] | _ => [field] end
  | String c s' =>
      if asciiSpace c
      then match field with EmptyString => [] | _ => [field] end
           ++ Fields_ascii_from s' EmptyString
      else Fields_ascii_from s' (field +:+ String c EmptyString)
  end.

Definition Fields_ascii (s : string) : list string :=
  Fields_ascii_from s EmptyString.

(** What the monitor does to the logger and the ticker. *)
Inductive monitor_event : Type :=
| monitor_Info (msg : string)
| monitor_NewTicker (d : Z)
| monitor_Stop
| monitor_Errorf (err : error)
| monitor_Infof (Active Idle : Z).

(** The case a [select] of the monitor takes: the context is done, or the
    ticker has fired, with what [os.ReadFile] then returns. *)
Inductive monitor_case : Type :=
| monitor_ctx_Done
| monitor_tick (read : result string).

Section TCPMonitoring.

(** [strings.Fields]. *)
Variable strings_Fields : string -> list string.

(** The loop over [lines[1:]], lines 171-185. *)
Fixpoint count_connections (lines : list string) (stats : TCPStats.t)
    : TCPStats.t :=
  match lines with
  | [] => stats
  | line :: lines' =>
      let fields := strings_Fields line in
      if (length fields <? 4)%nat then count_connections lines' stats
      else
        match fields !! 3%nat with
        | Some state =>
            if bool_decide (state = "01")
            then count_connections lines'
                   (TCPStats.mk (int64 (TCPStats.Active stats + 1))
                                (TCPStats.Idle stats))
            else count_connections lines'
                   (TCPStats.mk (TCPStats.Active stats)
                                (int64 (TCPStats.Idle stats + 1)))
        | None => count_connections lines' stats
        end
  end.

(** The statistics of one reading, lines 161-185; [None] is the run-time
    panic of the slice expression [lines[1:]] on an empty slice. *)
Definition connection_stats (data : string) : option TCPStats.t :=
  match strings_Split data newline with
  | [] => None
  | _ :: body => Some (count_connections body (TCPStats.mk 0 0))
  end.

(** The loop of [startTCPMonitoring] over the cases its selects take: the
    events, and whether the function has returned; [None] is a panic. *)
Fixpoint startTCPMonitoring_loop (cases : list monitor_case)
    : option (list monitor_event * bool) :=
  match cases with
  | [] => Some ([], false)
  | monitor_ctx_Done :: _ => Some ([monitor_Stop], true)
  | monitor_tick (Fail err) :: cases' =>
      match startTCPMonitoring_loop cases' with
      | Some (events, returned) => Some (monitor_Errorf err :: events, returned)
      | None => None
      end
  | monitor_tick (Ok data) :: cases' =>
      match connection_stats data with
      | None => None
      | Some stats =>
          match startTCPMonitoring_loop cases' with
          | Some (events, returned) =>
              Some (monitor_Infof (TCPStats.Active stats) (TCPStats.Idle stats)
                    :: events, returned)
          | None => None
          end
      end
  end.

Definition startTCPMonitoring (cases : list monitor_case)
    : option (list monitor_event * bool) :=
  match startTCPMonitoring_loop cases with
  | Some (events, returned) =>
      Some (monitor_Info "TCP Monitoring: goroutine is now running..."
            :: monitor_NewTicker (10 * Second) :: events, returned)
  | None => None
  end.

(** The lines that count: at least four fields; and among them those of an
    established connection: fourth field "01". *)
Definition has_state (line : string) : bool :=
  negb (length (strings_Fields line) <? 4)%nat.

Definition is_established (line : string) : bool :=
  has_state line && bool_decide (strings_Fields line !! 3%nat = Some "01").

(** How many lines are of an established connection, and how many of a
    connection in another state. *)
Definition established (lines : list string) : nat :=
  length (List.filter is_established lines).

Definition other_states (lines : list string) : nat :=
  length (List.filter
            (fun line => has_state line && negb (is_established line)) lines).

End TCPMonitoring.

Definition is_monitor_Infof (ev : monitor_event) : bool :=
  match ev with monitor_Infof _ _ => true | _ => false end.

Definition is_monitor_Errorf (ev : monitor_event) : bool :=
  match ev with monitor_Errorf _ => true | _ => false end.

Definition is_read (c : monitor_case) : bool :=
  match c with monitor_tick (Ok _) => true | _ => false end.

Definition is_failed_read (c : monitor_case) : bool :=
  match c with monitor_tick (Fail _) => true | _ => false end.

(** The cases before the context is first found done. *)
Fixpoint monitor_served (cases : list monitor_case) : list monitor_case :=
  match cases with
  | monitor_tick read :: cases' => monitor_tick read :: monitor_served cases'
  | _ => []
  end.

(** A reading of /proc/net/tcp: the header, an established connection, a
    listening socket, a line cut short and the empty piece after the last
    newline. *)
Definition proc_net_tcp : string :=
  "  sl  local_address rem_address   st tx_queue" +:+ String newline
  ("   0: 0100007F:0277 0A00020F:C350 01 00000000" +:+ String newline
  ("   1: 00000000:0016 00000000:0000 0A 00000000" +:+ String newline
  ("   2: 0100007F" +:+ String newline EmptyString))).

(** * Properties of the download task *)

Lemma uint64_small x : is_uint64 x -> uint64 x = x.
Proof. unfold is_uint64, uint64. intros H. apply Z.mod_small. lia. Qed.

Lemma int64_small x : is_int64 x -> int64 x = x.
Proof.
  unfold is_int64, int64. intros H.
  rewrite Z.mod_small by lia. lia.
Qed.

Lemma chain_Unwrap e :
  chain e = e :: match Unwrap e with Some w => chain w | None => [] end.
Proof. by destruct e. Qed.

Lemma len_app {A} (l k : list A) : len (l ++ k) = len l + len k.
Proof. unfold len. rewrite length_app. lia. Qed.

Lemma len_nonneg {A} (l : list A) : 0 <= len l.
Proof. unfold len. lia. Qed.

Lemma len_take_le {A} (n : Z) (l : list A) : 0 < n -> len (take (Z.to_nat n) l) <= n.
Proof. unfold len. intros H. rewrite length_take. lia. Qed.

(** What [PrefetchBlock.Write] does to the buffer. *)
Lemma Write_spec b p b' nw ew :
  PrefetchBlock.Write b p = (b', (nw, ew)) ->
  PrefetchBlock.AbsStartOff b' = PrefetchBlock.AbsStartOff b /\
  PrefetchBlock.Cap b' = PrefetchBlock.Cap b /\
  len (PrefetchBlock.buffer b') = len (PrefetchBlock.buffer b) + nw /\
  (ew = None -> nw = len p) /\ (ew <> None -> nw = 0).
Proof.
  unfold PrefetchBlock.Write. intros H.
  destruct (PrefetchBlock.Cap b <? _); inversion H; subst; cbn.
  - repeat split; try lia; congruence.
  - rewrite len_app. repeat split; congruence.
Qed.

(** The copy loop adds to the block exactly the bytes it counts, and never
    more than the limit allows. *)
Lemma io_Copy_LimitReader_spec reads : forall dst rerr N written dst' w err,
  io_Copy_LimitReader dst reads rerr N written = (dst', (w, err)) ->
  len (PrefetchBlock.buffer dst') - len (PrefetchBlock.buffer dst) = w - written /\
  0 <= w - written /\
  (0 <= N -> w - written <= N) /\
  (N <= 0 -> w = written /\ err = None).
Proof.
  induction reads as [|p reads IH]; intros dst rerr N written dst' w err; cbn.
  - destruct (Z.leb_spec N 0); intros [= <- <- <-]; repeat split; lia.
  - destruct (Z.leb_spec N 0) as [HN|HN].
    + intros [= <- <- <-]. repeat split; lia.
    + pose proof (len_take_le N p HN) as Hle.
      pose proof (len_nonneg (take (Z.to_nat N) p)) as Hge.
      destruct (Z.eqb_spec (len (take (Z.to_nat N) p)) 0) as [Hz|Hz].
      * intros H. apply IH in H. lia.
      * destruct (PrefetchBlock.Write dst (take (Z.to_nat N) p))
          as [d1 [nw [ew|]]] eqn:HW;
          apply Write_spec in HW as (_ & _ & Hlen & Hok & Hko).
        -- intros [= <- <- <-]. specialize (Hko ltac:(congruence)). lia.
        -- intros H. apply IH in H. specialize (Hok eq_refl). lia.
Qed.

(** [io.CopyN] with a non-negative count succeeds exactly when it has
    written that many bytes; with a negative count it writes nothing and
    reports no error. *)
Lemma io_CopyN_spec dst src n dst' k err :
  io_CopyN dst src n = (dst', (k, err)) ->
  len (PrefetchBlock.buffer dst') - len (PrefetchBlock.buffer dst) = k /\
  (0 <= n -> (err = None <-> k = n)) /\
  (n < 0 -> k = 0 /\ err = None).
Proof.
  unfold io_CopyN.
  destruct (io_Copy_LimitReader _ _ _ _ _) as [d1 [w e]] eqn:HC.
  apply io_Copy_LimitReader_spec in HC as (Hlen & Hge & Hle & Hneg).
  assert (Hneg' : n < 0 -> w = 0 /\ e = None) by (intros; apply Hneg; lia).
  clear Hneg.
  destruct (Z.eqb_spec w n) as [->|Hne];
    [|destruct (Z.ltb_spec w n) as [Hlt|Hge']; cbn [andb];
      [case_bool_decide as He|]];
    intros [= <- <- <-];
    (split; [lia|]); split; intros Hn;
    try (destruct (Hneg' Hn) as [-> ->]);
    try split; intros; try congruence; try lia.
Qed.

(** ** Paths through [Execute] *)

Lemma blockId_Some dt :
  PrefetchBlock.Cap (block dt) <> 0 -> is_Some (blockId dt).
Proof.
  intros H. unfold blockId.
  destruct (Z.eqb_spec (PrefetchBlock.Cap (block dt)) 0); [done | eauto].
Qed.

Lemma Execute_Some dt out :
  Execute dt = Some out ->
  exists id,
    blockId dt = Some id /\
    out = Outcome.mk (Execute_body dt).1.1 (Execute_body dt).2
            ([logger_Tracef "Download: <- block (%s, %v)."
                (MinObject.Name (object dt)) id]
             ++ (Execute_body dt).1.2
             ++ Execute_deferred dt id (Execute_body dt).2).
Proof.
  unfold Execute. destruct (blockId dt) as [id|]; [|done].
  destruct (Execute_body dt) as [[blk calls] err]. intros [= <-]. eauto.
Qed.

Lemma Execute_total dt :
  PrefetchBlock.Cap (block dt) <> 0 -> is_Some (Execute dt).
Proof.
  intros H. destruct (blockId_Some dt H) as [id Hid].
  unfold Execute. rewrite Hid.
  destruct (Execute_body dt) as [[blk calls] err]. eauto.
Qed.

Lemma Execute_body_path dt : path dt (Execute_body dt).
Proof.
  unfold Execute_body.
  destruct (bucket dt (request dt)) as [rd|e] eqn:Hopen.
  - destruct (io_CopyN (block dt) rd (copy_count dt)) as [blk [k [e|]]] eqn:Hcopy.
    + eapply path_copy_failed; eauto.
    + eapply path_success; eauto.
  - destruct (errors_As_NotFoundError e) eqn:Hnf.
    + by apply path_clobbered.
    + by apply path_open_failed.
Qed.

Lemma range_within_object dt :
  block_within_object dt ->
  let off := PrefetchBlock.AbsStartOff (block dt) in
  let cap := PrefetchBlock.Cap (block dt) in
  let size := MinObject.Size (object dt) in
  range_start dt = off /\
  range_end dt = Z.min (off + cap) size /\
  copy_count dt = Z.min (off + cap) size - off.
Proof.
  unfold block_within_object, copy_count, range_end, range_start, is_int64, is_uint64.
  cbv zeta. intros (Hoff & Hcap & Hio & Hic & Hsz).
  set (off := PrefetchBlock.AbsStartOff (block dt)) in *.
  set (cap := PrefetchBlock.Cap (block dt)) in *.
  set (size := MinObject.Size (object dt)) in *.
  assert (E1 : uint64 off = off) by (apply uint64_small; unfold is_uint64; lia).
  assert (E2 : uint64 cap = cap) by (apply uint64_small; unfold is_uint64; lia).
  rewrite E1, E2.
  assert (E3 : uint64 (off + cap) = off + cap)
    by (apply uint64_small; unfold is_uint64; lia).
  rewrite E3.
  destruct (Z.ltb_spec size (off + cap)).
  - rewrite Z.min_r by lia. repeat split; try done.
    rewrite uint64_small by (unfold is_uint64; lia).
    apply int64_small; unfold is_int64; lia.
  - rewrite Z.min_l by lia. repeat split; try done.
    rewrite uint64_small by (unfold is_uint64; lia).
    apply int64_small; unfold is_int64; lia.
Qed.

(** Splitting [Execute] along the four paths. *)
Ltac Execute_paths dt out Hex :=
  let id := fresh "id" in
  let Hid := fresh "Hid" in
  let P := fresh "P" in
  let body := fresh "body" in
  let Hbody := fresh "Hbody" in
  let e := fresh "e" in
  let rd := fresh "rd" in
  let blk := fresh "blk" in
  let k := fresh "k" in
  apply Execute_Some in Hex as (id & Hid & ->);
  pose proof (Execute_body_path dt) as P;
  remember (Execute_body dt) as body eqn:Hbody in *;
  destruct P as [e Popen Pnf | e Popen Pnf
                | rd blk k e Popen Pcopy | rd blk k Popen Pcopy];
  clear Hbody;
  cbn [fst snd Outcome.err Outcome.trace Outcome.block] in *.

Ltac run_trace dt :=
  unfold notifications, latency_labels, count_labels, handle_updates, requests,
         Execute_deferred, status_of;
  try destruct (readHandleUpdater dt);
  repeat match goal with
         | H : is_cancellation _ _ = _ |- _ => rewrite H
         end;
  cbn.

(** A successful run of a block inside its object. *)
Lemma Execute_success_inv dt out :
  Execute dt = Some out ->
  Outcome.err out = None ->
  exists rd k,
    bucket dt (request dt) = Ok rd /\
    io_CopyN (block dt) rd (copy_count dt) = (Outcome.block out, (k, None)) /\
    notifications (Outcome.trace out) = [BlockStatus.mk BlockStateDownloaded None] /\
    requests (Outcome.trace out) = [request dt] /\
    latency_labels (Outcome.trace out) = ["successful"] /\
    count_labels (Outcome.trace out) = ["successful"].
Proof.
  intros Hex Herr. Execute_paths dt out Hex; try discriminate.
  exists rd, k. repeat split; try done; run_trace dt; reflexivity.
Qed.

(** The bytes a successful run adds to a block that starts inside its
    object. *)
Lemma Execute_success_bytes dt out :
  block_within_object dt ->
  Execute dt = Some out ->
  Outcome.err out = None ->
  bytes_written dt out
  = Z.min (PrefetchBlock.AbsStartOff (block dt) + PrefetchBlock.Cap (block dt))
          (MinObject.Size (object dt))
    - PrefetchBlock.AbsStartOff (block dt).
Proof.
  intros Hwf Hex Herr.
  destruct (Execute_success_inv dt out Hex Herr) as (rd & k & _ & Hcopy & _).
  destruct (range_within_object dt Hwf) as (_ & _ & Hn).
  destruct Hwf as (Hoff & Hcap & _).
  apply io_CopyN_spec in Hcopy as (Hlen & Hk & _).
  assert (Hk' : k = copy_count dt) by (apply Hk; [lia | done]).
  unfold bytes_written. lia.
Qed.

(** C1, as amended: for every download task whose block starts inside the
    object (0 <= start <= objectSize, capacity >= 0) and whose execution
    succeeds, the number of bytes copied into the block is
    min(start+capacity, objectSize) - start, the range asked of the bucket
    is [start, min(start+capacity, objectSize)), and the block is notified
    once, with state Downloaded.  For size 10,000, capacity 4,096 and
    offset 8,192 the range is [8192, 10000) and 1,808 bytes are written. *)
Theorem Execute_success_fills_range (dt : DownloadTask.t) (out : Outcome.t) :
  block_within_object dt ->
  Execute dt = Some out ->
  Outcome.err out = None ->
  let off := PrefetchBlock.AbsStartOff (block dt) in
  let cap := PrefetchBlock.Cap (block dt) in
  let size := MinObject.Size (object dt) in
  bytes_written dt out = Z.min (off + cap) size - off /\
  notifications (Outcome.trace out) = [BlockStatus.mk BlockStateDownloaded None] /\
  ReadObjectRequest.Range <$> requests (Outcome.trace out)
    = [Some (ByteRange.mk off (Z.min (off + cap) size))] /\
  (off = 8192 -> cap = 4096 -> size = 10000 ->
   ReadObjectRequest.Range <$> requests (Outcome.trace out)
     = [Some (ByteRange.mk 8192 10000)] /\
   bytes_written dt out = 1808).
Proof.
  intros Hwf Hex Herr. cbv zeta.
  pose proof (Execute_success_bytes dt out Hwf Hex Herr) as Hbytes.
  destruct (Execute_success_inv dt out Hex Herr)
    as (rd & k & _ & _ & Hnot & Hreq & _).
  destruct (range_within_object dt Hwf) as (Hs & He & _).
  set (off := PrefetchBlock.AbsStartOff (block dt)) in *.
  set (cap := PrefetchBlock.Cap (block dt)) in *.
  set (size := MinObject.Size (object dt)) in *.
  assert (Hrange : ReadObjectRequest.Range <$> requests (Outcome.trace out)
                   = [Some (ByteRange.mk off (Z.min (off + cap) size))])
    by (rewrite Hreq; cbn; by rewrite Hs, He).
  do 3 (split; [done|]). intros E1 E2 E3.
  rewrite Hrange, Hbytes, E1, E2, E3. by split.
Qed.

Lemma Execute_success_fills_range_witness :
  exists out,
    Execute scenario_task = Some out /\
    bytes_written scenario_task out = 1808 /\
    notifications (Outcome.trace out) = [BlockStatus.mk BlockStateDownloaded None].
Proof.
  eexists. split; [vm_compute; reflexivity|].
  edestruct (Execute_success_fills_range scenario_task) as (_ & Hn & _ & Hs).
  - unfold block_within_object, is_int64, is_uint64. cbn. lia.
  - vm_compute. reflexivity.
  - reflexivity.
  - split; [|exact Hn]. apply Hs; reflexivity.
Defined.

(** C1, as stated, fails for a block that starts beyond the end of the
    object: the range end is clamped to the object size, the count given to
    [io.CopyN] is negative, nothing is copied and the run still succeeds. *)
Lemma Execute_past_object_end_succeeds_empty :
  let dt := task_past_object_end in
  let off := PrefetchBlock.AbsStartOff (block dt) in
  let cap := PrefetchBlock.Cap (block dt) in
  let size := MinObject.Size (object dt) in
  exists out,
    Execute dt = Some out /\
    Outcome.err out = None /\
    notifications (Outcome.trace out) = [BlockStatus.mk BlockStateDownloaded None] /\
    copy_count dt = -8092 /\
    bytes_written dt out = 0 /\
    bytes_written dt out <> Z.min (off + cap) size - off.
Proof.
  cbv zeta. eexists. split; [vm_compute; reflexivity|].
  repeat split; try reflexivity. vm_compute. discriminate.
Qed.

(** Wrapping keeps what [errors.Is] finds. *)
Lemma errors_Is_fmt_Errorf format args e target :
  errors_Is e target = true ->
  errors_Is (fmt_Errorf format args e) target = true.
Proof. unfold errors_Is. cbn. intros ->. apply orb_true_r. Qed.

Lemma errors_Is_FileClobberedError name e target :
  errors_Is e target = true -> errors_Is (FileClobberedError e name) target = true.
Proof. unfold errors_Is. cbn. intros ->. apply orb_true_r. Qed.

Ltac not_among :=
  let H := fresh in
  intros H;
  repeat (apply elem_of_cons in H as [H|H]; [discriminate H|]);
  by apply elem_of_nil in H.

(** C3: a download whose context is cancelled and whose failing call (the
    opening of the reader, or the copy) returns a cancellation error ends
    with one notification of state DownloadFailed, and both the latency
    observation and the scheduled-block counter carry the label
    "cancelled"; nothing is logged as an error. *)
Theorem Execute_cancelled_label (dt : DownloadTask.t) (e : error) :
  PrefetchBlock.Cap (block dt) <> 0 ->
  Context.Err (ctx dt) = Some context_Canceled ->
  errors_Is e context_Canceled = true ->
  (bucket dt (request dt) = Fail e \/
   exists rd blk k,
     bucket dt (request dt) = Ok rd /\
     io_CopyN (block dt) rd (copy_count dt) = (blk, (k, Some e))) ->
  exists out err,
    Execute dt = Some out /\
    notifications (Outcome.trace out)
      = [BlockStatus.mk BlockStateDownloadFailed (Some err)] /\
    latency_labels (Outcome.trace out) = ["cancelled"] /\
    count_labels (Outcome.trace out) = ["cancelled"] /\
    ("failed" ∉ latency_labels (Outcome.trace out)
                ++ count_labels (Outcome.trace out)) /\
    filter is_logger_Errorf (Outcome.trace out) = [].
Proof.
  intros Hcap Hctx He Hfail.
  destruct (Execute_total dt Hcap) as [out Hex]. exists out.
  assert (Hc : forall err, errors_Is err context_Canceled = true ->
                           is_cancellation dt err = true).
  { intros err Herr. unfold is_cancellation. rewrite Herr, Hctx. done. }
  pose proof Hex as Hex'.
  Execute_paths dt out Hex';
    destruct Hfail as [Hf | (rd' & blk' & k' & Hf & Hcp)];
    try congruence.
  - assert (e0 = e) as -> by congruence.
    eexists. split; [done|].
    pose proof (Hc _ (errors_Is_FileClobberedError (MinObject.Name (object dt)) e _ He)).
    run_trace dt; repeat split; try done; not_among.
  - assert (e0 = e) as -> by congruence.
    eexists. split; [done|].
    pose proof (Hc _ (errors_Is_fmt_Errorf
      "DownloadTask.Execute: while reader-creations: %w" [] e _ He)).
    run_trace dt; repeat split; try done; not_among.
  - assert (e0 = e) as -> by congruence.
    eexists. split; [done|].
    pose proof (Hc _ (errors_Is_fmt_Errorf
      "DownloadTask.Execute: while data-copy: %w" [] e _ He)).
    run_trace dt; repeat split; try done; not_among.
Qed.

Lemma Execute_cancelled_label_witness :
  exists out,
    Execute cancelled_task = Some out /\
    latency_labels (Outcome.trace out) = ["cancelled"] /\
    count_labels (Outcome.trace out) = ["cancelled"].
Proof.
  destruct (Execute_cancelled_label cancelled_task
              (fmt_Errorf "rpc: %w" [] context_Canceled))
    as (out & err & Hex & _ & Hl & Hc & _).
  - cbn. lia.
  - reflexivity.
  - reflexivity.
  - left. reflexivity.
  - exists out. auto.
Defined.

(** C4: when opening the ranged reader fails with a "not found" error, the
    block is notified once, with state DownloadFailed and a
    [FileClobberedError] around the bucket's error; and among all the errors
    a run can end with, the [FileClobberedError] kind is the one of this
    cause and of no other. *)
Theorem Execute_not_found_is_clobbered (dt : DownloadTask.t) (e : error) :
  PrefetchBlock.Cap (block dt) <> 0 ->
  bucket dt (request dt) = Fail e ->
  errors_As_NotFoundError e = true ->
  (exists out,
     let clobbered := FileClobberedError e (MinObject.Name (object dt)) in
     Execute dt = Some out /\
     notifications (Outcome.trace out)
       = [BlockStatus.mk BlockStateDownloadFailed (Some clobbered)] /\
     errors_As_FileClobberedError clobbered = true) /\
  (forall dt' out' err',
     Execute dt' = Some out' ->
     Outcome.err out' = Some err' ->
     is_FileClobberedError err' = true <->
     exists e', bucket dt' (request dt') = Fail e' /\
                errors_As_NotFoundError e' = true).
Proof.
  intros Hcap Hopen Hnf. split.
  - destruct (Execute_total dt Hcap) as [out Hex]. exists out. cbv zeta.
    split; [done|]. split; [|reflexivity].
    Execute_paths dt out Hex; try congruence.
    assert (e0 = e) as -> by congruence.
    unfold notifications, Execute_deferred.
    destruct (is_cancellation dt _); reflexivity.
  - intros dt' out' err' Hex Herr.
    Execute_paths dt' out' Hex; try discriminate Herr;
      injection Herr as <-; cbn.
    + split; [eauto | done].
    + split; [done | intros (e' & He' & Hnf'); congruence].
    + split; [done | intros (e' & He' & Hnf'); congruence].
Qed.

Lemma Execute_not_found_is_clobbered_witness :
  exists out e,
    Execute clobbered_task = Some out /\
    notifications (Outcome.trace out)
      = [BlockStatus.mk BlockStateDownloadFailed
           (Some (FileClobberedError e "replaced"))].
Proof.
  destruct (Execute_not_found_is_clobbered clobbered_task
              (gcs_NotFoundError (errors_New "storage: object doesn't exist")))
    as [(out & Hex & Hn & _) _].
  - cbn. lia.
  - reflexivity.
  - reflexivity.
  - exists out. eexists. split; [exact Hex | exact Hn].
Defined.

(** C10: when the reader opens and the copy then fails, with "not found" or
    with any other error, the block is notified once, with state
    DownloadFailed and the copy error wrapped by [fmt.Errorf]; that error is
    not a [FileClobberedError], whatever [errors.As] finds in the copy
    error. *)
Theorem Execute_copy_error_is_wrapped (dt : DownloadTask.t)
    (rd : StorageReader.t) (blk : PrefetchBlock.t) (k : Z) (e : error) :
  PrefetchBlock.Cap (block dt) <> 0 ->
  bucket dt (request dt) = Ok rd ->
  io_CopyN (block dt) rd (copy_count dt) = (blk, (k, Some e)) ->
  exists out,
    let wrapped := fmt_Errorf "DownloadTask.Execute: while data-copy: %w" [] e in
    Execute dt = Some out /\
    notifications (Outcome.trace out)
      = [BlockStatus.mk BlockStateDownloadFailed (Some wrapped)] /\
    is_FileClobberedError wrapped = false /\
    errors_As_FileClobberedError wrapped = errors_As_FileClobberedError e /\
    handle_updates (Outcome.trace out) = [].
Proof.
  intros Hcap Hopen Hcopy.
  destruct (Execute_total dt Hcap) as [out Hex]. exists out. cbv zeta.
  split; [done|].
  Execute_paths dt out Hex; try congruence.
  assert (rd0 = rd) as -> by congruence.
  assert (e0 = e) as -> by congruence.
  unfold notifications, handle_updates, Execute_deferred.
  destruct (is_cancellation dt _); repeat split; reflexivity.
Qed.

Lemma Execute_copy_error_is_wrapped_witness :
  exists out,
    Execute vanishing_task = Some out /\
    notifications (Outcome.trace out)
      = [BlockStatus.mk BlockStateDownloadFailed
           (Some (fmt_Errorf "DownloadTask.Execute: while data-copy: %w" []
                    (gcs_NotFoundError (errors_New "gone"))))].
Proof.
  edestruct (Execute_copy_error_is_wrapped vanishing_task)
    as (out & Hex & Hn & _).
  - cbn. lia.
  - reflexivity.
  - vm_compute. reflexivity.
  - exists out. split; [exact Hex | exact Hn].
Defined.

(** C7: every execution that starts (the capacity is not zero), whichever of
    the four paths it takes, notifies its block exactly once, with a
    terminal state, records exactly one latency observation and increments
    the scheduled-block counter exactly once, by one, both with the label
    the deferred function chose. *)
Theorem Execute_reports_once (dt : DownloadTask.t) :
  PrefetchBlock.Cap (block dt) <> 0 ->
  exists out st,
    Execute dt = Some out /\
    notifications (Outcome.trace out) = [st] /\
    BlockStatus.State st <> BlockStateInProgress /\
    BlockStatus.Err st = Outcome.err out /\
    (BlockStatus.State st = BlockStateDownloaded <-> Outcome.err out = None) /\
    omap (fun ev => match ev with
                    | BufferedReadDownloadBlockLatency d s => Some (d, s)
                    | _ => None end) (Outcome.trace out)
      = [(dur dt, status_of dt (Outcome.err out))] /\
    omap (fun ev => match ev with
                    | BufferedReadScheduledBlockCount n s => Some (n, s)
                    | _ => None end) (Outcome.trace out)
      = [(1, status_of dt (Outcome.err out))] /\
    latency_labels (Outcome.trace out) = count_labels (Outcome.trace out) /\
    status_of dt (Outcome.err out) ∈ ["successful"; "cancelled"; "failed"].
Proof.
  intros Hcap.
  destruct (Execute_total dt Hcap) as [out Hex]. exists out.
  pose proof Hex as Hex'.
  Execute_paths dt out Hex';
    eexists; (split; [done|]);
    unfold notifications, latency_labels, count_labels, Execute_deferred, status_of;
    try destruct (readHandleUpdater dt);
    try destruct (is_cancellation dt _);
    cbn; repeat split; try done; try set_solver.
Qed.

Lemma Execute_reports_once_witness :
  exists out,
    Execute vanishing_task = Some out /\
    length (notifications (Outcome.trace out)) = 1%nat /\
    latency_labels (Outcome.trace out) = ["failed"] /\
    count_labels (Outcome.trace out) = ["failed"].
Proof.
  destruct (Execute_reports_once vanishing_task) as (out & st & Hex & Hn & _).
  - cbn. lia.
  - exists out. split; [exact Hex|].
    rewrite Hn. vm_compute in Hex. injection Hex as <-.
    repeat split; reflexivity.
Defined.

(** C8: the read-handle updater is called exactly when the task was given
    one and the download succeeded, that is, the reader opened and
    [io.CopyN] returned no error; it is then called once, with the reader's
    handle, and never on a path that ends with an error (failed or
    cancelled).  For a block inside its object, succeeding is the same as
    having opened the reader and copied all
    min(start+capacity, objectSize) - start bytes. *)
Theorem readHandleUpdater_called_iff_success (dt : DownloadTask.t) :
  PrefetchBlock.Cap (block dt) <> 0 ->
  exists out,
    Execute dt = Some out /\
    (forall h,
       h ∈ handle_updates (Outcome.trace out) <->
       readHandleUpdater dt = true /\
       exists rd k,
         bucket dt (request dt) = Ok rd /\
         io_CopyN (block dt) rd (copy_count dt) = (Outcome.block out, (k, None)) /\
         h = StorageReader.ReadHandle rd) /\
    (length (handle_updates (Outcome.trace out)) <= 1)%nat /\
    (Outcome.err out <> None -> handle_updates (Outcome.trace out) = []) /\
    (status_of dt (Outcome.err out) <> "successful" ->
     handle_updates (Outcome.trace out) = []) /\
    (block_within_object dt ->
     let off := PrefetchBlock.AbsStartOff (block dt) in
     let cap := PrefetchBlock.Cap (block dt) in
     let size := MinObject.Size (object dt) in
     Outcome.err out = None <->
     exists rd, bucket dt (request dt) = Ok rd /\
                bytes_written dt out = Z.min (off + cap) size - off).
Proof.
  intros Hcap.
  destruct (Execute_total dt Hcap) as [out Hex]. exists out.
  split; [done|].
  assert (Hgloss : block_within_object dt ->
     Outcome.err out = None <->
     exists rd, bucket dt (request dt) = Ok rd /\
                bytes_written dt out
                = Z.min (PrefetchBlock.AbsStartOff (block dt)
                         + PrefetchBlock.Cap (block dt))
                        (MinObject.Size (object dt))
                  - PrefetchBlock.AbsStartOff (block dt)).
  { intros Hwf. split.
    - intros Herr.
      destruct (Execute_success_inv dt out Hex Herr) as (rd & k & Hopen & _).
      exists rd. split; [done|].
      exact (Execute_success_bytes dt out Hwf Hex Herr).
    - intros (rd & Hopen & Hbytes).
      destruct (range_within_object dt Hwf) as (_ & _ & Hn).
      destruct Hwf as (Hoff & Hc & _).
      Execute_paths dt out Hex; try congruence.
      apply io_CopyN_spec in Pcopy as (Hlen & Hk & _).
      unfold bytes_written in Hbytes. cbn in Hbytes.
      assert (k = copy_count dt) by lia.
      assert (Some e = None) by (apply Hk; [lia | done]).
      done. }
  Execute_paths dt out Hex;
    unfold handle_updates, Execute_deferred, status_of in *;
    try destruct (is_cancellation dt _);
    cbn [omap app list_omap] in *.
  all: (split; [|split; [|split; [|split; [|exact Hgloss]]]]).
  all: try (intros h; split;
            [intros Hin; by apply elem_of_nil in Hin
            |intros [_ (rd' & k' & Ho & Hc & _)]; congruence]).
  all: try (cbn; lia).
  all: try done.
  - intros h. destruct (readHandleUpdater dt); cbn.
    + split.
      * intros ->%list_elem_of_singleton. split; [done|]. exists rd, k. done.
      * intros [_ (rd' & k' & Ho & Hc & ->)].
        assert (rd' = rd) as -> by congruence.
        apply list_elem_of_singleton. reflexivity.
    + split; [intros Hin; by apply elem_of_nil in Hin | intros [? _]; done].
  - destruct (readHandleUpdater dt); cbn; lia.
Qed.

Lemma readHandleUpdater_called_iff_success_witness :
  exists out,
    Execute scenario_task = Some out /\
    [x01] ∈ handle_updates (Outcome.trace out) /\
    bytes_written scenario_task out = 1808.
Proof.
  destruct (readHandleUpdater_called_iff_success scenario_task)
    as (out & Hex & Hiff & _ & _ & _ & Hgloss).
  - cbn. lia.
  - exists out. split; [exact Hex|].
    assert (Hwf : block_within_object scenario_task)
      by (unfold block_within_object, is_int64, is_uint64; cbn; lia).
    pose proof Hex as Hex'. vm_compute in Hex'. injection Hex' as <-.
    split.
    + apply Hiff. split; [reflexivity|].
      eexists _, _. split; [reflexivity|]. split; [vm_compute; reflexivity|].
      reflexivity.
    + destruct (proj1 (Hgloss Hwf) eq_refl) as (rd & _ & ->). reflexivity.
Defined.

(** * Properties of the reaper *)

(** The comparison of line 58 is a comparison of the true age with the
    threshold: saturation of the [Duration] does not change its outcome. *)
Lemma fresh_iff now updated :
  (Time_Sub now updated <? stalenessThreshold) = true
  <-> now - updated < stalenessThreshold.
Proof.
  unfold Time_Sub, stalenessThreshold, maxDuration, minDuration,
    Minute, Second, Nanosecond.
  destruct (Z.ltb_spec (2 ^ 63 - 1) (now - updated));
    [|destruct (Z.ltb_spec (now - updated) (- 2 ^ 63))];
    rewrite Z.ltb_lt; lia.
Qed.

Lemma filter_stage_spec now objs :
  filter_stage now objs = MinObject.Name <$> filter (is_stale now) objs.
Proof.
  induction objs as [|o objs IH]; [done|]. cbn [filter_stage].
  rewrite filter_cons.
  destruct (Time_Sub now (MinObject.Updated o) <? stalenessThreshold) eqn:E.
  - apply fresh_iff in E. rewrite decide_False by (unfold is_stale; lia). done.
  - assert (~ now - MinObject.Updated o < stalenessThreshold)
      by (intros H%fresh_iff; congruence).
    rewrite decide_True by (unfold is_stale; lia). cbn. by f_equal.
Qed.

Lemma filter_stage_sublist now objs :
  filter_stage now objs `sublist_of` (MinObject.Name <$> objs).
Proof.
  rewrite filter_stage_spec. apply fmap_sublist, sublist_filter.
Qed.

(** The listing of a bucket. *)
Lemma under_names prefix b :
  MinObject.Name <$> Bucket.under prefix b
  = (filter (fun entry => String.prefix prefix entry.1 = true)
            (map_to_list (Bucket.objects b))).*1.
Proof.
  unfold Bucket.under. rewrite <- list_fmap_compose.
  apply list_fmap_ext. by intros _ [name o] _.
Qed.

Lemma under_NoDup prefix b :
  NoDup (MinObject.Name <$> Bucket.under prefix b).
Proof.
  rewrite under_names.
  apply (sublist_NoDup _ ((map_to_list (Bucket.objects b)).*1));
    [apply NoDup_fst_map_to_list | apply fmap_sublist, sublist_filter].
Qed.

Lemma elem_of_under prefix b o :
  o ∈ Bucket.under prefix b <->
  String.prefix prefix (MinObject.Name o) = true /\
  exists o', Bucket.objects b !! MinObject.Name o = Some o' /\
             o = Bucket.named (MinObject.Name o, o').
Proof.
  unfold Bucket.under. rewrite list_elem_of_fmap. split.
  - intros ([name o'] & -> & [Hp Hin]%list_elem_of_filter).
    apply elem_of_map_to_list in Hin. cbn in *. eauto.
  - intros (Hp & o' & Hlook & Heq).
    exists (MinObject.Name o, o'). split; [done|].
    apply list_elem_of_filter. split; [done|].
    by apply elem_of_map_to_list.
Qed.

Lemma list_stage_sublist b prefix :
  (list_stage b prefix).1 `sublist_of` Bucket.under prefix b.
Proof.
  unfold list_stage, ListPrefix.
  destruct (Bucket.list_fault b) as [[n e]|]; cbn; [apply sublist_take | done].
Qed.

(** ** The delete stage *)

Lemma DeleteObject_present b name o :
  Bucket.objects b !! name = Some o ->
  Bucket.delete_fault b !! name = None ->
  Bucket.DeleteObject b (delete_request name)
  = (Bucket.mk (delete name (Bucket.objects b)) (Bucket.list_fault b)
       (Bucket.delete_fault b) (Bucket.deletes b ++ [delete_request name]),
     None).
Proof.
  intros Ho Hf. unfold Bucket.DeleteObject. cbn. by rewrite Hf, Ho.
Qed.

Lemma DeleteObject_refused b name e :
  Bucket.delete_fault b !! name = Some e ->
  Bucket.DeleteObject b (delete_request name)
  = (Bucket.mk (Bucket.objects b) (Bucket.list_fault b)
       (Bucket.delete_fault b) (Bucket.deletes b ++ [delete_request name]),
     Some e).
Proof.
  intros Hf. unfold Bucket.DeleteObject. cbn. by rewrite Hf.
Qed.

Lemma delete_stage_deletable names : forall b n,
  deletable names b -> 0 <= n -> n + len names < 2 ^ 64 ->
  exists b',
    delete_stage b names n = (b', (n + len names, None)) /\
    without names b b' /\
    Bucket.deletes b' = Bucket.deletes b ++ (delete_request <$> names).
Proof.
  induction names as [|name names IH]; intros b n [Hnd Hall] Hn Hlt.
  - exists b. cbn. unfold without, len. cbn.
    rewrite Z.add_0_r, Z.sub_0_r, app_nil_r. repeat split; try done.
  - apply NoDup_cons in Hnd as [Hnotin Hnd].
    destruct (Hall name) as [[o Ho] Hf]; [by left|].
    unfold len in *. cbn [length] in Hlt.
    cbn [delete_stage]. fold (delete_request name).
    rewrite (DeleteObject_present b name o Ho Hf).
    set (b1 := Bucket.mk _ _ _ _).
    rewrite uint64_small by (unfold is_uint64; lia).
    destruct (IH b1 (n + 1)) as (b' & Hrun & (Hlook & Hsize & Hlf & Hdf) & Hlog).
    + split; [done|]. intros x Hx. cbn.
      rewrite lookup_delete_ne by (intros ->; done).
      apply Hall. by right.
    + lia.
    + unfold len. lia.
    + exists b'. split; [rewrite Hrun; do 2 f_equal; unfold len; cbn; lia|].
      split; [|rewrite Hlog; cbn; by rewrite <- app_assoc].
      split; [|split; [|by split]].
      * intros x. rewrite Hlook. cbn.
        destruct (decide (x ∈ names)) as [Hin|Hin];
          destruct (decide (x ∈ name :: names)) as [Hin'|Hin']; try done.
        -- exfalso. apply Hin'. by right.
        -- apply elem_of_cons in Hin' as [->|?]; [apply lookup_delete_eq | done].
        -- apply lookup_delete_ne. intros ->. apply Hin'. by left.
      * rewrite Hsize. cbn.
        rewrite map_size_delete_Some by eauto.
        assert (size (Bucket.objects b) <> 0%nat).
        { intros Hz%map_size_empty_inv. rewrite Hz in Ho. done. }
        unfold len. cbn [length]. lia.
Qed.

Lemma delete_stage_app pre rest : forall b n,
  delete_stage b (pre ++ rest) n
  = match delete_stage b pre n with
    | (b1, (n1, None)) => delete_stage b1 rest n1
    | failed => failed
    end.
Proof.
  induction pre as [|name pre IH]; intros b n; [done|].
  cbn [app delete_stage].
  destruct (Bucket.DeleteObject b _) as [b1 [e|]]; [done | apply IH].
Qed.

(** The first refused deletion ends the stage: the count is the number of
    deletions before it, and those deletions stay. *)
Lemma delete_stage_refused pre x post b n e :
  deletable pre b ->
  Bucket.delete_fault b !! x = Some e ->
  0 <= n -> n + len pre < 2 ^ 64 ->
  exists b',
    delete_stage b (pre ++ x :: post) n
    = (b', (n + len pre,
            Some (fmt_Errorf "DeleteObject(%q): %w" [x] e))) /\
    without pre b b' /\
    Bucket.deletes b' = Bucket.deletes b ++ (delete_request <$> pre ++ [x]).
Proof.
  intros Hpre Hx Hn Hlt.
  destruct (delete_stage_deletable pre b n Hpre Hn Hlt)
    as (b1 & Hrun & Hwo & Hlog).
  rewrite delete_stage_app, Hrun. cbn [delete_stage].
  fold (delete_request x).
  destruct Hwo as (Hlook & Hsize & Hlf & Hdf).
  rewrite (DeleteObject_refused b1 x e) by (by rewrite Hdf).
  eexists. split; [reflexivity|]. split.
  - by repeat split.
  - cbn. rewrite Hlog, fmap_app, <- app_assoc. done.
Qed.

(** ** One run *)

Lemma garbageCollectOnce_stages run prefix b :
  garbageCollectOnce run prefix b
  = let '(b', (n, delete_err)) := delete_stage b (received run prefix b) 0 in
    (b', (n, match delete_err with
             | Some err => Some err
             | None => (list_stage b prefix).2
             end)).
Proof.
  unfold garbageCollectOnce, received, forwarded.
  destruct (list_stage b prefix) as [objs [e|]]; reflexivity.
Qed.

Lemma received_sublist run prefix b :
  received run prefix b `sublist_of` (MinObject.Name <$> Bucket.under prefix b).
Proof.
  assert (forwarded run prefix b
          `sublist_of` (MinObject.Name <$> Bucket.under prefix b)) as Hf.
  { unfold forwarded. etrans; [apply filter_stage_sublist|].
    apply fmap_sublist, list_stage_sublist. }
  unfold received. destruct ((list_stage b prefix).2); [|done].
  etrans; [apply sublist_take | done].
Qed.

Lemma received_NoDup run prefix b : NoDup (received run prefix b).
Proof.
  eapply sublist_NoDup; [apply (under_NoDup prefix b) | apply received_sublist].
Qed.

Lemma received_present run prefix b x :
  x ∈ received run prefix b -> is_Some (Bucket.objects b !! x).
Proof.
  intros Hx. eapply elem_of_sublist in Hx; [|apply received_sublist].
  apply list_elem_of_fmap in Hx as (o & -> & Ho).
  apply elem_of_under in Ho as (_ & o' & Ho' & _). eauto.
Qed.

Lemma received_length run prefix b :
  len (received run prefix b) <= Z.of_nat (size (Bucket.objects b)).
Proof.
  pose proof (sublist_length _ _ (received_sublist run prefix b)) as H.
  rewrite length_fmap in H. unfold Bucket.under in H.
  rewrite length_fmap in H.
  pose proof (length_filter
    (fun entry : string * MinObject.t => String.prefix prefix entry.1 = true)
    (map_to_list (Bucket.objects b))) as H'.
  rewrite length_map_to_list in H'. unfold len. lia.
Qed.

(** With a healthy listing, a name is forwarded exactly when it names an
    object under the prefix whose age has reached the threshold. *)
Lemma elem_of_forwarded run prefix b x :
  Bucket.list_fault b = None ->
  x ∈ forwarded run prefix b <->
  exists o, Bucket.objects b !! x = Some o /\
            String.prefix prefix x = true /\ is_stale (Run.now run) o.
Proof.
  intros Hl. unfold forwarded, list_stage, ListPrefix. rewrite Hl. cbn.
  rewrite filter_stage_spec, list_elem_of_fmap. split.
  - intros (o & -> & [Hs Ho]%list_elem_of_filter).
    apply elem_of_under in Ho as (Hp & o' & Ho' & Heq).
    exists o'. repeat split; try done. by rewrite Heq in Hs.
  - intros (o & Ho & Hp & Hs).
    exists (Bucket.named (x, o)). split; [done|].
    apply list_elem_of_filter. split; [done|].
    apply elem_of_under. cbn. eauto.
Qed.

(** C2, as amended: in a run whose listing and deletions meet no failure,
    the names forwarded to the delete stage are exactly those of the listed
    objects whose age (the clock reading at the start of the run minus the
    last-updated timestamp) is at least 30 minutes; exactly those objects
    are deleted, every other object is left as it was, and the count
    returned is their number. *)
Theorem garbageCollectOnce_deletes_stale (run : Run.t) (prefix : string)
    (b : Bucket.t) :
  Bucket.list_fault b = None ->
  Bucket.delete_fault b = ∅ ->
  Z.of_nat (size (Bucket.objects b)) < 2 ^ 64 ->
  let now := Run.now run in
  forwarded run prefix b
    = MinObject.Name <$> filter (is_stale now) (Bucket.under prefix b) /\
  exists b',
    garbageCollectOnce run prefix b
      = (b', (len (filter (is_stale now) (Bucket.under prefix b)), None)) /\
    (forall name,
       Bucket.objects b' !! name
       = match Bucket.objects b !! name with
         | Some o =>
             if decide (String.prefix prefix name = true /\
                        stalenessThreshold <= now - MinObject.Updated o)
             then None else Some o
         | None => None
         end) /\
    Bucket.deletes b'
      = Bucket.deletes b ++ (delete_request <$> forwarded run prefix b).
Proof.
  intros Hl Hf Hsize now.
  assert (Hfw : forwarded run prefix b
                = MinObject.Name <$> filter (is_stale now) (Bucket.under prefix b)).
  { unfold forwarded, list_stage, ListPrefix. rewrite Hl. cbn.
    apply filter_stage_spec. }
  split; [done|].
  assert (Hrc : received run prefix b = forwarded run prefix b).
  { unfold received, list_stage, ListPrefix. by rewrite Hl. }
  pose proof (received_length run prefix b) as Hlen.
  destruct (delete_stage_deletable (received run prefix b) b 0)
    as (b' & Hrun & (Hlook & _) & Hlog); [|lia|lia|].
  { split; [apply received_NoDup|]. intros x Hx.
    split; [by eapply received_present | by rewrite Hf]. }
  exists b'. rewrite garbageCollectOnce_stages, Hrun.
  assert ((list_stage b prefix).2 = None) as ->
    by (unfold list_stage, ListPrefix; by rewrite Hl).
  rewrite Hrc in *. split; [|split; [|done]].
  - rewrite Z.add_0_l, Hfw. unfold len. by rewrite length_fmap.
  - intros name. rewrite Hlook.
    pose proof (elem_of_forwarded run prefix b name Hl) as Hiff.
    destruct (Bucket.objects b !! name) as [o|] eqn:Ho.
    + destruct (decide (name ∈ forwarded run prefix b)) as [Hin|Hin];
        case_decide as Hd; try done.
      * apply Hiff in Hin as (o' & [= <-] & Hp & Hs). by destruct Hd.
      * destruct Hin. apply Hiff. exists o. by destruct Hd.
    + by destruct (decide _).
Qed.

Lemma garbageCollectOnce_deletes_stale_witness :
  exists b',
    garbageCollectOnce (Run.mk run_start 0) ".gcsfuse_tmp/" three_objects
      = (b', (2, None)) /\
    is_Some (Bucket.objects b' !! ".gcsfuse_tmp/5m") /\
    Bucket.objects b' !! ".gcsfuse_tmp/31m" = None /\
    Bucket.objects b' !! ".gcsfuse_tmp/2h" = None.
Proof.
  destruct (garbageCollectOnce_deletes_stale
              (Run.mk run_start 0) ".gcsfuse_tmp/" three_objects)
    as (_ & b' & Hrun & Hlook & _).
  - reflexivity.
  - reflexivity.
  - vm_compute. reflexivity.
  - exists b'. split; [rewrite Hrun; vm_compute; reflexivity|].
    rewrite !Hlook. vm_compute. repeat split. eauto.
Defined.

(** C2, as stated, fails at the boundary: an object whose age is exactly
    30 minutes, which is not strictly greater than the threshold, is
    forwarded and deleted. *)
Lemma object_aged_exactly_30_minutes_is_deleted :
  let run := Run.mk run_start 0 in
  let b := boundary_object in
  exists o b',
    Bucket.objects b !! ".gcsfuse_tmp/30m" = Some o /\
    Run.now run - MinObject.Updated o = 30 * Minute /\
    ~ (Run.now run - MinObject.Updated o > stalenessThreshold) /\
    forwarded run ".gcsfuse_tmp/" b = [".gcsfuse_tmp/30m"] /\
    garbageCollectOnce run ".gcsfuse_tmp/" b = (b', (1, None)) /\
    Bucket.objects b' !! ".gcsfuse_tmp/30m" = None.
Proof.
  cbv zeta. eexists _, _.
  split; [vm_compute; reflexivity|].
  split; [vm_compute; reflexivity|].
  split; [vm_compute; discriminate|].
  split; [vm_compute; reflexivity|].
  split; [vm_compute; reflexivity|].
  vm_compute. reflexivity.
Qed.

(** Whatever the backend refuses, the count moves with the objects that
    are gone, and the requests sent are those of a prefix of the names. *)
Lemma delete_stage_accounting names : forall b n,
  NoDup names ->
  (forall x, x ∈ names -> is_Some (Bucket.objects b !! x)) ->
  0 <= n -> n + len names < 2 ^ 64 ->
  exists b' n' err attempted,
    delete_stage b names n = (b', (n', err)) /\
    n' - n = Z.of_nat (size (Bucket.objects b))
             - Z.of_nat (size (Bucket.objects b')) /\
    attempted `prefix_of` names /\
    Bucket.deletes b' = Bucket.deletes b ++ (delete_request <$> attempted) /\
    (err = None -> attempted = names).
Proof.
  induction names as [|name names IH]; intros b n Hnd Hall Hn Hlt.
  - exists b, n, None, []. cbn. rewrite app_nil_r. repeat split; try done. lia.
  - apply NoDup_cons in Hnd as [Hnotin Hnd].
    destruct (Hall name) as [o Ho]; [by left|].
    unfold len in *. cbn [length] in Hlt.
    cbn [delete_stage]. fold (delete_request name).
    destruct (Bucket.delete_fault b !! name) as [e|] eqn:Hf.
    + rewrite (DeleteObject_refused b name e Hf).
      eexists _, _, _, [name]. split; [reflexivity|]. cbn.
      repeat split; try done; [lia | by apply prefix_cons, prefix_nil].
    + rewrite (DeleteObject_present b name o Ho Hf).
      set (b1 := Bucket.mk _ _ _ _).
      rewrite uint64_small by (unfold is_uint64; lia).
      destruct (IH b1 (n + 1))
        as (b' & n' & err & att & Hrun & Hcnt & Hpre & Hlog & Hall');
        [done| |lia|lia|].
      { intros x Hx. cbn. rewrite lookup_delete_ne by (intros ->; done).
        apply Hall. by right. }
      exists b', n', err, (name :: att). split; [done|].
      split; [|split; [by apply prefix_cons|split]].
      * cbn in Hcnt. rewrite map_size_delete_Some in Hcnt by eauto.
        assert (size (Bucket.objects b) <> 0%nat).
        { intros Hz%map_size_empty_inv. rewrite Hz in Ho. done. }
        lia.
      * rewrite Hlog. cbn. by rewrite <- app_assoc.
      * intros He. by rewrite (Hall' He).
Qed.

(** C5: in every run the delete stage sends, for the names it handles, a
    delete request with generation 0 and no precondition, and the count
    returned is the number of objects that are gone from the bucket.  When
    a deletion is refused, the run returns the number of deletions made
    before it together with that error (wrapped with the name), and the
    objects deleted before it stay deleted. *)
Theorem garbageCollectOnce_delete_accounting (run : Run.t) (prefix : string)
    (b : Bucket.t) :
  Z.of_nat (size (Bucket.objects b)) < 2 ^ 64 ->
  (exists b' n err attempted,
     garbageCollectOnce run prefix b = (b', (n, err)) /\
     attempted `prefix_of` received run prefix b /\
     Bucket.deletes b' = Bucket.deletes b ++ (delete_request <$> attempted) /\
     (forall req, req ∈ delete_request <$> attempted ->
                  DeleteObjectRequest.Generation req = 0 /\
                  DeleteObjectRequest.MetaGenerationPrecondition req = None) /\
     n = Z.of_nat (size (Bucket.objects b))
         - Z.of_nat (size (Bucket.objects b'))) /\
  (forall pre x post e,
     received run prefix b = pre ++ x :: post ->
     (forall y, y ∈ pre -> Bucket.delete_fault b !! y = None) ->
     Bucket.delete_fault b !! x = Some e ->
     exists b',
       garbageCollectOnce run prefix b
         = (b', (len pre, Some (fmt_Errorf "DeleteObject(%q): %w" [x] e))) /\
       (forall y, Bucket.objects b' !! y
                  = if decide (y ∈ pre) then None else Bucket.objects b !! y) /\
       Bucket.deletes b' = Bucket.deletes b ++ (delete_request <$> pre ++ [x])).
Proof.
  intros Hsize.
  pose proof (received_length run prefix b) as Hlen.
  pose proof (received_NoDup run prefix b) as Hnd.
  split.
  - destruct (delete_stage_accounting (received run prefix b) b 0)
      as (b' & n & err & att & Hrun & Hcnt & Hpre & Hlog & _);
      [done | intros x; apply received_present | lia | lia |].
    rewrite garbageCollectOnce_stages, Hrun.
    eexists b', n, _, att. split; [reflexivity|].
    do 2 (split; [done|]). split; [|lia].
    intros req (name & -> & _)%list_elem_of_fmap. by split.
  - intros pre x post e Hrc Hpre Hx.
    rewrite Hrc in Hnd, Hlen.
    apply NoDup_app in Hnd as (Hnd & _ & _).
    assert (Hlp : len pre <= len (pre ++ x :: post))
      by (unfold len; rewrite length_app; lia).
    destruct (delete_stage_refused pre x post b 0 e)
      as (b' & Hrun & (Hlook & _) & Hlog); [|done|lia|lia|].
    { split; [done|]. intros y Hy. split; [|by apply Hpre].
      apply (received_present run prefix). rewrite Hrc.
      apply elem_of_app. by left. }
    exists b'. rewrite garbageCollectOnce_stages, Hrc, Hrun.
    by rewrite Z.add_0_l.
Qed.

Lemma garbageCollectOnce_delete_accounting_witness :
  exists b',
    garbageCollectOnce (Run.mk run_start 0) ".gcsfuse_tmp/" refusing_bucket
      = (b', (1, Some (fmt_Errorf "DeleteObject(%q): %w" [".gcsfuse_tmp/1h"]
                         (errors_New "backend unavailable")))) /\
    Bucket.objects b' !! ".gcsfuse_tmp/3h" = None /\
    is_Some (Bucket.objects b' !! ".gcsfuse_tmp/1h") /\
    is_Some (Bucket.objects b' !! ".gcsfuse_tmp/2h").
Proof.
  destruct (garbageCollectOnce_delete_accounting
              (Run.mk run_start 0) ".gcsfuse_tmp/" refusing_bucket)
    as [_ Hfail]; [vm_compute; reflexivity|].
  destruct (Hfail [".gcsfuse_tmp/3h"] ".gcsfuse_tmp/1h" [".gcsfuse_tmp/2h"]
              (errors_New "backend unavailable"))
    as (b' & Hrun & Hlook & _).
  - vm_compute. reflexivity.
  - intros y ->%list_elem_of_singleton. vm_compute. reflexivity.
  - vm_compute. reflexivity.
  - exists b'. split; [exact Hrun|].
    rewrite !Hlook. vm_compute. repeat split; eauto.
Defined.



(** ** The periodic loop *)





(** * Further properties of the download task *)

(** ** The copy, byte by byte *)

(** The loop appends to the block the first bytes of the stream, as many as
    it counts, and keeps a block that is within its capacity within it. *)
Lemma io_Copy_LimitReader_content reads : forall dst rerr N written dst' w err,
  io_Copy_LimitReader dst reads rerr N written = (dst', (w, err)) ->
  PrefetchBlock.buffer dst'
  = PrefetchBlock.buffer dst ++ take (Z.to_nat (w - written)) (concat reads) /\
  PrefetchBlock.Cap dst' = PrefetchBlock.Cap dst /\
  PrefetchBlock.AbsStartOff dst' = PrefetchBlock.AbsStartOff dst /\
  (len (PrefetchBlock.buffer dst) <= PrefetchBlock.Cap dst ->
   len (PrefetchBlock.buffer dst') <= PrefetchBlock.Cap dst').
Proof.
  induction reads as [|p reads IH]; intros dst rerr N written dst' w err; cbn.
  - destruct (Z.leb_spec N 0); intros [= <- <- <-];
      rewrite Z.sub_diag, app_nil_r; done.
  - destruct (Z.leb_spec N 0) as [HN|HN].
    { intros [= <- <- <-]. rewrite Z.sub_diag. cbn. by rewrite app_nil_r. }
    destruct (Z.eqb_spec (len (take (Z.to_nat N) p)) 0) as [Hz|Hz].
    + intros H. apply IH in H as (Hbuf & Hcap & Hoff & Hinv).
      assert (p = []) as ->; [|done].
      destruct p as [|c p]; [done|]. unfold len in Hz.
      rewrite length_take in Hz. cbn in Hz. lia.
    + unfold PrefetchBlock.Write.
      destruct (Z.ltb_spec (PrefetchBlock.Cap dst)
                  (len (PrefetchBlock.buffer dst) + len (take (Z.to_nat N) p)))
        as [Hfull|Hfits].
      * intros [= <- <- <-].
        replace (written + 0 - written) with 0 by lia.
        cbn. by rewrite app_nil_r.
      * intros H.
        pose proof (io_Copy_LimitReader_spec _ _ _ _ _ _ _ _ H)
          as (_ & Hge & _ & Hstop).
        apply IH in H as (Hbuf & Hcap & Hoff & Hinv). cbn in *.
        split; [|split; [done|split; [done|]]].
        -- rewrite Hbuf, <- app_assoc. f_equal.
           rewrite take_app. unfold len in *. rewrite length_take in *.
           destruct (Nat.le_gt_cases (length p) (Z.to_nat N)) as [Hle|Hgt].
           ++ rewrite Nat.min_r in * by done.
              rewrite (take_ge p (Z.to_nat N)) by lia.
              rewrite (take_ge p (Z.to_nat (w - written))) by lia.
              do 2 f_equal. lia.
           ++ rewrite Nat.min_l in * by lia.
              destruct Hstop as [-> _]; [lia|].
              replace (Z.to_nat (written + Z.of_nat (Z.to_nat N) - written))
                with (Z.to_nat N) by lia.
              replace (Z.to_nat (written + Z.of_nat (Z.to_nat N)
                                 - (written + Z.of_nat (Z.to_nat N))))
                with 0%nat by lia.
              replace (Z.to_nat N - length p)%nat with 0%nat by lia.
              done.
        -- intros _. apply Hinv. rewrite len_app. lia.
Qed.

Lemma io_CopyN_content dst src n dst' k err :
  io_CopyN dst src n = (dst', (k, err)) ->
  PrefetchBlock.buffer dst'
  = PrefetchBlock.buffer dst ++ take (Z.to_nat k) (concat (StorageReader.reads src)) /\
  0 <= k /\ k <= Z.max n 0 /\
  PrefetchBlock.Cap dst' = PrefetchBlock.Cap dst /\
  PrefetchBlock.AbsStartOff dst' = PrefetchBlock.AbsStartOff dst /\
  (len (PrefetchBlock.buffer dst) <= PrefetchBlock.Cap dst ->
   len (PrefetchBlock.buffer dst') <= PrefetchBlock.Cap dst').
Proof.
  unfold io_CopyN.
  destruct (io_Copy_LimitReader _ _ _ _ _) as [d1 [w e]] eqn:HC.
  pose proof (io_Copy_LimitReader_spec _ _ _ _ _ _ _ _ HC)
    as (_ & Hge & Hle & Hneg).
  apply io_Copy_LimitReader_content in HC as (Hbuf & Hcap & Hoff & Hinv).
  rewrite Z.sub_0_r in *.
  assert (w <= Z.max n 0).
  { destruct (Z.le_gt_cases 0 n); [lia|]. destruct Hneg; lia. }
  destruct (w =? n) eqn:E;
    [apply Z.eqb_eq in E; subst w
    |destruct ((w <? n) && bool_decide (e = None))];
    intros [= <- <- <-]; repeat split; try done; lia.
Qed.

(** With room in the block the loop takes the first [N] bytes of the
    stream, or all of it when it is shorter; it reports the reader's error
    only when the stream was too short. *)
Lemma io_Copy_LimitReader_room reads : forall dst rerr N written,
  len (PrefetchBlock.buffer dst) + Z.min (Z.max N 0) (len (concat reads))
  <= PrefetchBlock.Cap dst ->
  exists dst',
    io_Copy_LimitReader dst reads rerr N written
    = (dst', (written + Z.min (Z.max N 0) (len (concat reads)),
              if len (concat reads) <? N then rerr else None)).
Proof.
  induction reads as [|p reads IH]; intros dst rerr N written Hroom;
    cbn [io_Copy_LimitReader concat] in *.
  - change (len (@nil byte)) with 0 in *.
    destruct (Z.leb_spec N 0); destruct (Z.ltb_spec 0 N); try lia;
      eexists; do 2 f_equal; lia.
  - rewrite len_app in *.
    pose proof (len_nonneg p) as Hp.
    pose proof (len_nonneg (concat reads)) as Hr.
    destruct (Z.leb_spec N 0) as [HN|HN].
    { destruct (Z.ltb_spec (len p + len (concat reads)) N); [lia|].
      eexists. do 2 f_equal. lia. }
    assert (Hlp : len (take (Z.to_nat N) p) = Z.min N (len p))
      by (unfold len; rewrite length_take; lia).
    destruct (Z.eqb_spec (len (take (Z.to_nat N) p)) 0) as [Hz|Hz].
    + assert (len p = 0) as Hp0 by lia. rewrite Hp0, Z.add_0_l in *.
      apply IH. done.
    + unfold PrefetchBlock.Write.
      destruct (Z.ltb_spec (PrefetchBlock.Cap dst)
                  (len (PrefetchBlock.buffer dst) + len (take (Z.to_nat N) p)))
        as [Hfull|Hfits]; [lia|].
      set (dst1 := PrefetchBlock.mk _ _ _).
      destruct (IH dst1 rerr (N - len (take (Z.to_nat N) p))
                  (written + len (take (Z.to_nat N) p))) as [dst' ->].
      { unfold dst1. cbn. rewrite len_app. lia. }
      exists dst'. rewrite Hlp.
      destruct (Z.ltb_spec (len (concat reads)) (N - Z.min N (len p)));
        destruct (Z.ltb_spec (len p + len (concat reads)) N);
        try lia; do 2 f_equal; lia.
Qed.

Lemma io_CopyN_room dst src n :
  len (PrefetchBlock.buffer dst)
  + Z.min (Z.max n 0) (len (concat (StorageReader.reads src)))
  <= PrefetchBlock.Cap dst ->
  exists dst',
    io_CopyN dst src n
    = (dst', (Z.min (Z.max n 0) (len (concat (StorageReader.reads src))),
              if len (concat (StorageReader.reads src)) <? n
              then Some (default io_EOF (StorageReader.read_err src))
              else None)).
Proof.
  intros Hroom. unfold io_CopyN.
  destruct (io_Copy_LimitReader_room (StorageReader.reads src) dst
              (StorageReader.read_err src) n 0 Hroom) as [dst' ->].
  pose proof (len_nonneg (concat (StorageReader.reads src))) as Hr.
  rewrite Z.add_0_l. exists dst'.
  destruct (Z.ltb_spec (len (concat (StorageReader.reads src))) n) as [Hlt|Hge].
  - rewrite (proj2 (Z.eqb_neq _ _)) by lia.
    rewrite (proj2 (Z.ltb_lt _ _)) by lia. cbn.
    destruct (StorageReader.read_err src); reflexivity.
  - destruct (Z.eqb_spec (Z.min (Z.max n 0)
                (len (concat (StorageReader.reads src)))) n) as [E|E].
    + by rewrite E.
    + rewrite (proj2 (Z.ltb_ge _ _)) by lia. reflexivity.
Qed.

(** ** What a run does and does not do *)



(** Evaluating a trace whichever branch the deferred function took. *)
Ltac run_any_trace dt :=
  unfold notifications, latency_labels, count_labels, handle_updates, requests,
         closes, Execute_deferred, status_of;
  try destruct (readHandleUpdater dt);
  try destruct (is_cancellation dt _);
  cbn.

(** Whatever the offset and the capacity, wrap-around included, the one
    read request of a run names the object and its generation, passes the
    task's read handle, asks for compressed data exactly when the object is
    gzip-encoded, and asks for a range of 64-bit bounds whose limit does not
    exceed the object's size. *)
Theorem Execute_request_within_object (dt : DownloadTask.t) :
  PrefetchBlock.Cap (block dt) <> 0 ->
  is_uint64 (MinObject.Size (object dt)) ->
  exists out start limit,
    Execute dt = Some out /\
    requests (Outcome.trace out)
    = [ReadObjectRequest.mk (MinObject.Name (object dt))
         (MinObject.Generation (object dt))
         (Some (ByteRange.mk start limit))
         (bool_decide (MinObject.ContentEncoding (object dt) = "gzip"))
         (readHandle dt)] /\
    is_uint64 start /\ is_uint64 limit /\
    limit <= MinObject.Size (object dt).
Proof.
  intros Hcap Hsize.
  destruct (Execute_total dt Hcap) as [out Hex].
  exists out, (range_start dt), (range_end dt). split; [done|].
  assert (Hu : forall x, is_uint64 (uint64 x)).
  { intros x. unfold is_uint64, uint64. apply Z.mod_pos_bound. lia. }
  split; [|split; [apply Hu|split]].
  - Execute_paths dt out Hex; run_any_trace dt; reflexivity.
  - unfold range_end. destruct (_ <? _); [done | apply Hu].
  - unfold range_end.
    destruct (Z.ltb_spec (MinObject.Size (object dt))
                (uint64 (range_start dt + uint64 (PrefetchBlock.Cap (block dt)))));
      lia.
Qed.

(** A block whose offset and capacity add up beyond 64 bits. *)
Lemma Execute_request_within_object_witness :
  exists out limit,
    Execute task_past_object_end = Some out /\
    ReadObjectRequest.Range <$> requests (Outcome.trace out)
    = [Some (ByteRange.mk 8192 limit)] /\
    limit <= 100.
Proof.
  destruct (Execute_request_within_object task_past_object_end)
    as (out & start & limit & Hex & Hreq & _ & _ & Hle).
  - cbn. lia.
  - unfold is_uint64. cbn. lia.
  - exists out, limit. split; [done|]. split; [|exact Hle].
    rewrite Hreq. cbn. do 3 f_equal.
    pose proof Hex as Hex'. vm_compute in Hex'. injection Hex' as <-.
    vm_compute in Hreq. injection Hreq as <- _. reflexivity.
Defined.

(** ** The block and the reader *)

(** Whatever path a run takes, the block keeps what it held and gains only
    bytes from the front of the reader's stream, no more than the count
    given to [io.CopyN]; a block within its capacity stays within it, and
    its offset and capacity do not change.  When the reader cannot be
    opened the block is left exactly as it was. *)
Theorem Execute_block_invariant (dt : DownloadTask.t) :
  PrefetchBlock.Cap (block dt) <> 0 ->
  exists out k,
    Execute dt = Some out /\
    0 <= k <= Z.max (copy_count dt) 0 /\
    bytes_written dt out = k /\
    PrefetchBlock.buffer (Outcome.block out)
    = PrefetchBlock.buffer (block dt)
      ++ match bucket dt (request dt) with
         | Ok rd => take (Z.to_nat k) (stream rd)
         | Fail _ => []
         end /\
    PrefetchBlock.Cap (Outcome.block out) = PrefetchBlock.Cap (block dt) /\
    PrefetchBlock.AbsStartOff (Outcome.block out)
    = PrefetchBlock.AbsStartOff (block dt) /\
    (len (PrefetchBlock.buffer (block dt)) <= PrefetchBlock.Cap (block dt) ->
     len (PrefetchBlock.buffer (Outcome.block out))
     <= PrefetchBlock.Cap (block dt)) /\
    (forall e, bucket dt (request dt) = Fail e -> Outcome.block out = block dt).
Proof.
  intros Hcap.
  destruct (Execute_total dt Hcap) as [out Hex]. exists out.
  pose proof Hex as Hex'.
  Execute_paths dt out Hex'; unfold bytes_written; cbn; rewrite Popen.
  1,2: exists 0; rewrite app_nil_r; repeat split; try done; lia.
  all: exists k; unfold stream;
    pose proof (io_CopyN_content _ _ _ _ _ _ Pcopy)
      as (Hbuf & Hk0 & Hk1 & Hc & Ho & Hinv);
    apply io_CopyN_spec in Pcopy as (Hlen & _);
    (split; [done|]); (split; [lia|]); (split; [exact Hlen|]);
    (split; [exact Hbuf|]); (split; [exact Hc|]); (split; [exact Ho|]);
    (split; [intros Hin; rewrite <- Hc; by apply Hinv | congruence]).
Qed.

Lemma Execute_block_invariant_witness :
  exists out,
    Execute truncated_task = Some out /\
    PrefetchBlock.buffer (Outcome.block out) = repeat x2a 60 ++ repeat x2b 40.
Proof.
  destruct (Execute_block_invariant truncated_task)
    as (out & k & Hex & _ & Hk & Hbuf & _).
  - cbn. lia.
  - exists out. split; [done|].
    rewrite Hbuf. pose proof Hex as Hex'. vm_compute in Hex'.
    injection Hex' as <-. vm_compute in Hk. subst k. vm_compute. reflexivity.
Defined.

(** When the reader opens and the block has room, the run succeeds exactly
    when the stream holds at least the count asked for; the block then
    holds the first bytes of the stream, as many as were asked for, and
    nothing of the surplus.  A stream that ends early fails the run with the
    reader's error, or with [io.EOF] when the reader had none, wrapped as a
    copy error, and the bytes delivered stay in the block. *)
Theorem Execute_succeeds_iff_stream_suffices (dt : DownloadTask.t)
    (rd : StorageReader.t) :
  PrefetchBlock.Cap (block dt) <> 0 ->
  bucket dt (request dt) = Ok rd ->
  has_room dt rd ->
  exists out,
    Execute dt = Some out /\
    (Outcome.err out = None <-> copy_count dt <= len (stream rd)) /\
    (len (stream rd) < copy_count dt ->
     Outcome.err out
     = Some (fmt_Errorf "DownloadTask.Execute: while data-copy: %w" []
               (default io_EOF (StorageReader.read_err rd)))) /\
    PrefetchBlock.buffer (Outcome.block out)
    = PrefetchBlock.buffer (block dt)
      ++ take (Z.to_nat (copy_count dt)) (stream rd).
Proof.
  intros Hcap Hopen Hroom.
  destruct (Execute_total dt Hcap) as [out Hex]. exists out.
  split; [done|].
  destruct (io_CopyN_room (block dt) rd (copy_count dt) Hroom)
    as (blk' & Hcopy).
  pose proof (io_CopyN_content _ _ _ _ _ _ Hcopy) as (Hbuf & _).
  pose proof (len_nonneg (stream rd)) as Hs.
  assert (Htake : take (Z.to_nat (Z.min (Z.max (copy_count dt) 0) (len (stream rd))))
                    (stream rd)
                  = take (Z.to_nat (copy_count dt)) (stream rd)).
  { destruct (Z.le_gt_cases (copy_count dt) (len (stream rd))).
    - f_equal. lia.
    - unfold len in *. rewrite !take_ge by lia. done. }
  Execute_paths dt out Hex; try congruence.
  all: assert (rd0 = rd) as -> by congruence;
    rewrite Hcopy in Pcopy; injection Pcopy as <- <- Herr.
  all: destruct (Z.ltb_spec (len (concat (StorageReader.reads rd))) (copy_count dt))
      as [Hshort|Hlong]; try discriminate Herr; unfold stream in *.
  - injection Herr as <-. split; [split; [done | intros; lia]|].
    split; [done|]. by rewrite Hbuf, Htake.
  - split; [split; intros; [lia | done]|]. split; [intros; lia|].
    by rewrite Hbuf, Htake.
Qed.

Lemma Execute_succeeds_iff_stream_suffices_witness :
  exists out,
    Execute truncated_task = Some out /\
    Outcome.err out
    = Some (fmt_Errorf "DownloadTask.Execute: while data-copy: %w" [] io_EOF) /\
    bytes_written truncated_task out = 100.
Proof.
  edestruct (Execute_succeeds_iff_stream_suffices truncated_task)
    as (out & Hex & _ & Hshort & Hbuf).
  - cbn. lia.
  - reflexivity.
  - unfold has_room. vm_compute. discriminate.
  - exists out. split; [done|]. split.
    + rewrite Hshort; [reflexivity|]. vm_compute. reflexivity.
    + unfold bytes_written. rewrite Hbuf. vm_compute. reflexivity.
Defined.

(** The reader is closed exactly once when it was opened, on success and on
    a failed copy alike, and never when opening it failed; when opening
    failed the updater is not called either. *)
Theorem Execute_closes_reader_iff_opened (dt : DownloadTask.t) :
  PrefetchBlock.Cap (block dt) <> 0 ->
  exists out,
    Execute dt = Some out /\
    closes (Outcome.trace out)
    = match bucket dt (request dt) with Ok _ => 1%nat | Fail _ => 0%nat end /\
    (forall e, bucket dt (request dt) = Fail e ->
               handle_updates (Outcome.trace out) = [] /\
               Outcome.err out <> None).
Proof.
  intros Hcap.
  destruct (Execute_total dt Hcap) as [out Hex]. exists out.
  split; [done|].
  Execute_paths dt out Hex; rewrite Popen;
    (split; [run_any_trace dt; reflexivity|]);
    intros e' He'; try discriminate He';
    (split; [run_any_trace dt; reflexivity | done]).
Qed.

Lemma Execute_closes_reader_iff_opened_witness :
  exists out out',
    Execute clobbered_task = Some out /\ closes (Outcome.trace out) = 0%nat /\
    Execute vanishing_task = Some out' /\ closes (Outcome.trace out') = 1%nat.
Proof.
  destruct (Execute_closes_reader_iff_opened clobbered_task)
    as (out & Hex & Hc & _); [cbn; lia|].
  destruct (Execute_closes_reader_iff_opened vanishing_task)
    as (out' & Hex' & Hc' & _); [cbn; lia|].
  exists out, out'. repeat split; try done.
Defined.

Lemma split_first_spec {A} (P : A -> bool) (pre post : list A) x :
  forallb (fun y => negb (P y)) pre = true ->
  P x = true ->
  split_first P (pre ++ x :: post) = Some (pre, x, post).
Proof.
  intros Hpre Hx. induction pre as [|y pre IH]; cbn in *.
  - by rewrite Hx.
  - apply andb_true_iff in Hpre as [Hy Hpre].
    destruct (P y); [done|]. by rewrite (IH Hpre).
Qed.

Lemma no_notification_before_the_only_one pre st post st0 :
  notifications (pre ++ NotifyReady st :: post) = [st0] ->
  forallb (fun ev => negb (is_NotifyReady ev)) pre = true.
Proof.
  unfold notifications. rewrite omap_app.
  induction pre as [|ev pre IH]; [done|].
  intros Hn. destruct ev; cbn in *; try (by apply IH).
  apply (f_equal length) in Hn. cbn in Hn. rewrite length_app in Hn.
  cbn in Hn. lia.
Qed.

(** When the block is notified the reader's work is over: the request has
    been made, the updater called and the reader closed, and after the
    notification come only the latency observation and the counter
    increment, in that order, with the label of the outcome. *)
Theorem Execute_notifies_after_reader_work (dt : DownloadTask.t) :
  PrefetchBlock.Cap (block dt) <> 0 ->
  exists out,
    Execute dt = Some out /\
    forall pre st post,
      Outcome.trace out = pre ++ NotifyReady st :: post ->
      post = [BufferedReadDownloadBlockLatency (dur dt)
                (status_of dt (Outcome.err out));
              BufferedReadScheduledBlockCount 1
                (status_of dt (Outcome.err out))] /\
      requests pre = [request dt] /\
      closes pre = closes (Outcome.trace out) /\
      handle_updates pre = handle_updates (Outcome.trace out).
Proof.
  intros Hcap.
  destruct (Execute_total dt Hcap) as [out Hex]. exists out.
  split; [done|]. intros pre st post Heq.
  assert (Hone : exists st0, notifications (Outcome.trace out) = [st0]).
  { clear Heq. Execute_paths dt out Hex; run_any_trace dt; eauto. }
  destruct Hone as [st0 Hone]. rewrite Heq in Hone.
  apply no_notification_before_the_only_one in Hone.
  pose proof (split_first_spec is_NotifyReady pre post (NotifyReady st)
                Hone eq_refl) as Hsplit.
  rewrite <- Heq in Hsplit. clear Heq Hone.
  Execute_paths dt out Hex;
    unfold Execute_deferred, status_of in *;
    try destruct (readHandleUpdater dt);
    try destruct (is_cancellation dt _);
    cbn in Hsplit; injection Hsplit as <- <- <-; done.
Qed.

Lemma Execute_notifies_after_reader_work_witness :
  exists out,
    Execute clobbered_task = Some out /\
    drop 4 (Outcome.trace out)
    = [BufferedReadDownloadBlockLatency 3 "failed";
       BufferedReadScheduledBlockCount 1 "failed"].
Proof.
  destruct (Execute_notifies_after_reader_work clobbered_task)
    as (out & Hex & Horder); [cbn; lia|].
  exists out. split; [done|].
  pose proof Hex as Hex'. vm_compute in Hex'. injection Hex' as <-.
  set (o := Outcome.mk _ _ _) in *.
  destruct (Horder (take 3 (Outcome.trace o))
              (BlockStatus.mk BlockStateDownloadFailed (Outcome.err o))
              (drop 4 (Outcome.trace o)))
    as (Hpost & _); [reflexivity|].
  rewrite Hpost. reflexivity.
Defined.

(** ** The label of a failure *)

Lemma errors_Is_Canceled_fmt_Errorf format args e :
  errors_Is (fmt_Errorf format args e) context_Canceled
  = errors_Is e context_Canceled.
Proof. reflexivity. Qed.

Lemma errors_Is_Canceled_FileClobberedError e name :
  errors_Is (FileClobberedError e name) context_Canceled
  = errors_Is e context_Canceled.
Proof. reflexivity. Qed.

(** A run whose reader creation or copy fails is labelled "cancelled" only
    when the error of the failing call wraps [context.Canceled] and the
    task's own context reports [context.Canceled]; in every other case (a
    deadline that ran out, a cancellation that came from elsewhere, any
    other error) both metrics carry "failed" and the failure is logged as an
    error. *)
Theorem Execute_failure_label (dt : DownloadTask.t) (e : error) :
  PrefetchBlock.Cap (block dt) <> 0 ->
  (bucket dt (request dt) = Fail e \/
   exists rd blk k,
     bucket dt (request dt) = Ok rd /\
     io_CopyN (block dt) rd (copy_count dt) = (blk, (k, Some e))) ->
  exists out,
    let cancelled :=
      errors_Is e context_Canceled
      && bool_decide (Context.Err (ctx dt) = Some context_Canceled) in
    Execute dt = Some out /\
    latency_labels (Outcome.trace out)
    = [if cancelled then "cancelled" else "failed"] /\
    count_labels (Outcome.trace out)
    = [if cancelled then "cancelled" else "failed"] /\
    length (filter is_logger_Errorf (Outcome.trace out))
    = (if cancelled then 0 else 1)%nat.
Proof.
  intros Hcap Hfail.
  destruct (Execute_total dt Hcap) as [out Hex]. exists out. cbv zeta.
  split; [done|].
  Execute_paths dt out Hex;
    destruct Hfail as [Hf | (rd' & blk' & k' & Hf & Hcp)];
    try congruence.
  all: assert (e0 = e) as -> by congruence.
  all: unfold latency_labels, count_labels, Execute_deferred, status_of,
         is_cancellation;
    rewrite ?errors_Is_Canceled_fmt_Errorf, ?errors_Is_Canceled_FileClobberedError;
    destruct (errors_Is e context_Canceled && _); done.
Qed.

Lemma Execute_failure_label_witness :
  exists out,
    Execute timed_out_task = Some out /\
    latency_labels (Outcome.trace out) = ["failed"] /\
    count_labels (Outcome.trace out) = ["failed"].
Proof.
  destruct (Execute_failure_label timed_out_task
              (fmt_Errorf "rpc: %w" [] context_DeadlineExceeded))
    as (out & Hex & Hl & Hc & _).
  - cbn. lia.
  - left. reflexivity.
  - exists out. auto.
Defined.

(** * Further properties of the reaper *)

(** A name is forwarded only for an object in the bucket, under the prefix,
    whose age has reached the threshold; this holds for a listing that
    breaks off too. *)
Lemma forwarded_stale run prefix b x :
  x ∈ forwarded run prefix b ->
  exists o, Bucket.objects b !! x = Some o /\
            String.prefix prefix x = true /\ is_stale (Run.now run) o.
Proof.
  unfold forwarded. rewrite filter_stage_spec, list_elem_of_fmap.
  intros (o & -> & [Hs Ho]%list_elem_of_filter).
  eapply elem_of_sublist in Ho; [|apply list_stage_sublist].
  apply elem_of_under in Ho as (Hp & o' & Ho' & Heq).
  exists o'. repeat split; try done. by rewrite Heq in Hs.
Qed.

Lemma received_forwarded run prefix b x :
  x ∈ received run prefix b -> x ∈ forwarded run prefix b.
Proof.
  unfold received. destruct ((list_stage b prefix).2); [|done].
  intros Hx. eapply elem_of_sublist; [exact Hx | apply sublist_take].
Qed.

(** The delete stage in general: it deletes a prefix of its names and stops
    at the first name the backend refuses. *)
Lemma delete_stage_general names : forall b n,
  NoDup names ->
  (forall x, x ∈ names -> is_Some (Bucket.objects b !! x)) ->
  0 <= n -> n + len names < 2 ^ 64 ->
  exists b' gone err,
    delete_stage b names n = (b', (n + len gone, err)) /\
    gone `prefix_of` names /\
    without gone b b' /\
    (err = None -> gone = names).
Proof.
  induction names as [|name names IH]; intros b n Hnd Hall Hn Hlt.
  - exists b, [], None. cbn. unfold without, len. cbn.
    rewrite Z.add_0_r, Z.sub_0_r. repeat split; done.
  - apply NoDup_cons in Hnd as [Hnotin Hnd].
    destruct (Hall name) as [o Ho]; [by left|].
    unfold len in *. cbn [length] in Hlt.
    cbn [delete_stage]. fold (delete_request name).
    destruct (Bucket.delete_fault b !! name) as [e|] eqn:Hf.
    + rewrite (DeleteObject_refused b name e Hf).
      eexists _, [], _. cbn. rewrite Z.add_0_r.
      split; [reflexivity|]. split; [apply prefix_nil|].
      split; [|done]. unfold without, len. cbn. rewrite Z.sub_0_r.
      repeat split; done.
    + destruct (delete_stage_deletable [name] b n)
        as (b1 & Hrun1 & Hwo1 & _).
      { split; [apply NoDup_singleton|].
        intros x ->%list_elem_of_singleton. eauto. }
      { done. }
      { unfold len. cbn. lia. }
      cbn [delete_stage] in Hrun1. fold (delete_request name) in Hrun1.
      destruct (Bucket.DeleteObject b (delete_request name)) as [b1' [e1|]];
        [discriminate Hrun1|].
      injection Hrun1 as -> _.
      destruct Hwo1 as (Hlook1 & Hsize1 & Hlf1 & Hdf1).
      rewrite uint64_small by (unfold is_uint64; lia).
      destruct (IH b1 (n + 1)) as (b' & gone & err & Hrun & Hpre & Hwo & Hnone);
        [done| |lia|lia|].
      { intros x Hx. rewrite Hlook1.
        rewrite decide_False; [apply Hall; by right|].
        intros ->%list_elem_of_singleton. done. }
      exists b', (name :: gone), err.
      split; [rewrite Hrun; do 2 f_equal; cbn; lia|].
      split; [by apply prefix_cons|]. split; [|intros He; by rewrite (Hnone He)].
      destruct Hwo as (Hlook & Hsize & Hlf & Hdf).
      split; [|split; [|split; congruence]].
      * intros x. rewrite Hlook, Hlook1.
        destruct (decide (x ∈ gone)) as [Hin|Hin];
          destruct (decide (x ∈ [name])) as [Hin1|Hin1];
          destruct (decide (x ∈ name :: gone)) as [Hin'|Hin']; try done.
        -- destruct Hin'. by right.
        -- destruct Hin'. by right.
        -- apply list_elem_of_singleton in Hin1 as ->. destruct Hin'. by left.
        -- apply elem_of_cons in Hin' as [->|?]; [|done].
           destruct Hin1. by apply list_elem_of_singleton.
      * rewrite Hsize, Hsize1. unfold len. cbn [length]. lia.
Qed.

(** Any run, on any backend: the bucket afterwards is the bucket before
    without some of the objects that were under the prefix and stale. *)
Lemma garbageCollectOnce_safe run prefix b :
  Z.of_nat (size (Bucket.objects b)) < 2 ^ 64 ->
  exists b' n err gone,
    garbageCollectOnce run prefix b = (b', (n, err)) /\
    without gone b b' /\
    n = len gone /\
    (forall x, x ∈ gone -> x ∈ forwarded run prefix b).
Proof.
  intros Hsize.
  pose proof (received_length run prefix b) as Hlen.
  destruct (delete_stage_general (received run prefix b) b 0)
    as (b' & gone & err & Hrun & Hpre & Hwo & _);
    [apply received_NoDup | intros x; apply received_present | lia | lia |].
  rewrite garbageCollectOnce_stages, Hrun.
  eexists b', _, _, gone. split; [reflexivity|]. split; [done|].
  split; [lia|]. intros x Hx. apply (received_forwarded run prefix b).
  destruct Hpre as [rest ->]. apply elem_of_app. by left.
Qed.

(** Whatever the listing and the backend do, a run removes only objects
    that are under the prefix and whose age has reached the threshold;
    every other object, and every object it did not get to, is in the
    bucket afterwards exactly as before, and the count returned is the
    number of objects removed. *)
Theorem garbageCollectOnce_removes_only_stale (run : Run.t) (prefix : string)
    (b : Bucket.t) :
  Z.of_nat (size (Bucket.objects b)) < 2 ^ 64 ->
  exists b' n err,
    garbageCollectOnce run prefix b = (b', (n, err)) /\
    (forall name,
       Bucket.objects b' !! name = Bucket.objects b !! name \/
       (Bucket.objects b' !! name = None /\
        exists o, Bucket.objects b !! name = Some o /\
                  String.prefix prefix name = true /\
                  stalenessThreshold <= Run.now run - MinObject.Updated o)) /\
    n = Z.of_nat (size (Bucket.objects b)) - Z.of_nat (size (Bucket.objects b')).
Proof.
  intros Hsize.
  destruct (garbageCollectOnce_safe run prefix b Hsize)
    as (b' & n & err & gone & Hrun & (Hlook & Hsz & _) & Hn & Hgone).
  exists b', n, err. split; [done|]. split; [|lia].
  intros name. rewrite Hlook.
  destruct (decide (name ∈ gone)) as [Hin|Hin]; [right | by left].
  split; [done|]. by apply (forwarded_stale run prefix b), Hgone.
Qed.

Lemma garbageCollectOnce_removes_only_stale_witness :
  exists b' n err,
    garbageCollectOnce (Run.mk run_start 0) ".gcsfuse_tmp/" three_objects
      = (b', (n, err)) /\
    is_Some (Bucket.objects b' !! ".gcsfuse_tmp/5m").
Proof.
  destruct (garbageCollectOnce_removes_only_stale
              (Run.mk run_start 0) ".gcsfuse_tmp/" three_objects)
    as (b' & n & err & Hrun & Hlook & _); [vm_compute; reflexivity|].
  exists b', n, err. split; [done|].
  destruct (Hlook ".gcsfuse_tmp/5m") as [Heq | (_ & o & Ho & _ & Hs)].
  - rewrite Heq. vm_compute. eauto.
  - exfalso. vm_compute in Ho. injection Ho as <-.
    vm_compute in Hs. by apply Hs.
Defined.

(** A run that meets no failure leaves nothing for a second run to do: run
    again with the same clock reading, or an earlier one, the second run
    sends no delete request, returns a count of 0 and no error, and leaves
    the bucket as the first run left it. *)
Theorem garbageCollectOnce_idempotent (run run' : Run.t) (prefix : string)
    (b : Bucket.t) :
  Bucket.list_fault b = None ->
  Bucket.delete_fault b = ∅ ->
  Z.of_nat (size (Bucket.objects b)) < 2 ^ 64 ->
  Run.now run' <= Run.now run ->
  exists b' n,
    garbageCollectOnce run prefix b = (b', (n, None)) /\
    garbageCollectOnce run' prefix b' = (b', (0, None)).
Proof.
  intros Hl Hf Hsize Hnow.
  assert (Hrc : received run prefix b = forwarded run prefix b)
    by (unfold received, list_stage, ListPrefix; by rewrite Hl).
  pose proof (received_length run prefix b) as Hlen.
  destruct (delete_stage_deletable (received run prefix b) b 0)
    as (b' & Hrun & (Hlook & _ & Hlf & Hdf) & _); [|lia|lia|].
  { split; [apply received_NoDup|]. intros x Hx.
    split; [by eapply received_present | by rewrite Hf]. }
  exists b', (len (received run prefix b)).
  assert (Hnone : forall bb, Bucket.list_fault bb = None ->
                             (list_stage bb prefix).2 = None)
    by (intros bb Hbb; unfold list_stage, ListPrefix; by rewrite Hbb).
  split.
  { rewrite garbageCollectOnce_stages, Hrun, (Hnone b Hl). by rewrite Z.add_0_l. }
  assert (Hempty : forwarded run' prefix b' = []).
  { destruct (forwarded run' prefix b') as [|x rest] eqn:Hfw; [done|].
    exfalso.
    assert (Hx : x ∈ forwarded run' prefix b') by (rewrite Hfw; by left).
    apply forwarded_stale in Hx as (o & Ho & Hp & Hs).
    rewrite Hlook in Ho.
    destruct (decide (x ∈ received run prefix b)) as [|Hnot]; [done|].
    apply Hnot. rewrite Hrc. apply elem_of_forwarded; [done|].
    exists o. repeat split; try done. unfold is_stale in *. lia. }
  rewrite garbageCollectOnce_stages.
  assert (received run' prefix b' = []) as ->.
  { unfold received. rewrite Hempty.
    destruct ((list_stage b' prefix).2); [apply take_nil | done]. }
  cbn. rewrite (Hnone b') by congruence. done.
Qed.

Lemma garbageCollectOnce_idempotent_witness :
  exists b',
    garbageCollectOnce (Run.mk run_start 0) ".gcsfuse_tmp/" three_objects
      = (b', (2, None)) /\
    garbageCollectOnce (Run.mk run_start 0) ".gcsfuse_tmp/" b' = (b', (0, None)).
Proof.
  destruct (garbageCollectOnce_idempotent (Run.mk run_start 0)
              (Run.mk run_start 0) ".gcsfuse_tmp/" three_objects)
    as (b' & n & Hrun & Hagain).
  - reflexivity.
  - reflexivity.
  - vm_compute. reflexivity.
  - cbn. lia.
  - exists b'. split; [|done].
    rewrite Hrun. pose proof Hrun as Hrun'. vm_compute in Hrun'.
    by injection Hrun' as _ <-.
Defined.

(** When no object under the prefix has reached the threshold, an empty
    bucket included, a run sends no delete request, changes nothing and
    returns a count of 0; its error is that of the listing, if any.  The
    delete backend is not contacted at all. *)
Theorem garbageCollectOnce_nothing_stale (run : Run.t) (prefix : string)
    (b : Bucket.t) :
  (forall name o,
     Bucket.objects b !! name = Some o ->
     String.prefix prefix name = true ->
     Run.now run - MinObject.Updated o < stalenessThreshold) ->
  garbageCollectOnce run prefix b = (b, (0, (list_stage b prefix).2)).
Proof.
  intros Hfresh.
  assert (Hempty : forwarded run prefix b = []).
  { destruct (forwarded run prefix b) as [|x rest] eqn:Hfw; [done|].
    exfalso.
    assert (Hx : x ∈ forwarded run prefix b) by (rewrite Hfw; by left).
    apply forwarded_stale in Hx as (o & Ho & Hp & Hs).
    specialize (Hfresh x o Ho Hp). unfold is_stale in Hs. lia. }
  rewrite garbageCollectOnce_stages.
  assert (received run prefix b = []) as ->.
  { unfold received. rewrite Hempty.
    destruct ((list_stage b prefix).2); [apply take_nil | done]. }
  reflexivity.
Qed.

Lemma garbageCollectOnce_nothing_stale_witness :
  garbageCollectOnce (Run.mk run_start 0) ".gcsfuse_tmp/" nothing_to_collect
  = (nothing_to_collect, (0, None)).
Proof.
  rewrite (garbageCollectOnce_nothing_stale (Run.mk run_start 0)
             ".gcsfuse_tmp/" nothing_to_collect); [reflexivity|].
  intros name o Ho Hp.
  destruct (decide (name = ".gcsfuse_tmp/5m")) as [->|Hne].
  - vm_compute in Ho. injection Ho as <-. vm_compute. reflexivity.
  - destruct (decide (name = "data/3h")) as [->|Hne'].
    + vm_compute in Hp. discriminate Hp.
    + unfold nothing_to_collect in Ho. cbn in Ho.
      rewrite lookup_insert_ne in Ho by done.
      rewrite lookup_insert_ne in Ho by done.
      by rewrite lookup_empty in Ho.
Defined.



(** ** The loop and the bucket *)

Lemma garbageCollect_loop_safe prefix cases : forall b,
  Z.of_nat (size (Bucket.objects b)) < 2 ^ 64 ->
  let b' := (garbageCollect_loop cases prefix b).1.1 in
  (forall name,
     Bucket.objects b' !! name = Bucket.objects b !! name \/
     (Bucket.objects b' !! name = None /\
      String.prefix prefix name = true /\
      is_Some (Bucket.objects b !! name))) /\
  (size (Bucket.objects b') <= size (Bucket.objects b))%nat.
Proof.
  induction cases as [|[|run elapsed] cases IH]; intros b Hsize; cbn.
  - split; [by left | done].
  - split; [by left | done].
  - destruct (garbageCollectOnce_safe run prefix b Hsize)
      as (b1 & n & err & gone & Hrun & (Hlook & Hsz & _) & Hn & Hgone).
    rewrite Hrun.
    pose proof (len_nonneg gone) as Hg.
    destruct (IH b1) as [Hsafe Hle]; [lia|].
    cbv zeta in Hsafe, Hle.
    destruct (garbageCollect_loop cases prefix b1) as [[b2 events] returned].
    cbn in *. split; [|lia].
    intros name.
    assert (Hstep : Bucket.objects b1 !! name = Bucket.objects b !! name \/
                    (Bucket.objects b1 !! name = None /\
                     String.prefix prefix name = true /\
                     is_Some (Bucket.objects b !! name))).
    { rewrite Hlook. destruct (decide (name ∈ gone)) as [Hin|]; [right|by left].
      apply Hgone, forwarded_stale in Hin as (o & Ho & Hp & _). eauto. }
    destruct (Hsafe name) as [Heq | (Hnone & Hp & Hsome)].
    + rewrite Heq. exact Hstep.
    + right. split; [done|]. split; [done|].
      destruct Hstep as [Heq | (Hnone1 & _ & Hsome1)]; [by rewrite <- Heq|].
      rewrite Hnone1 in Hsome. by destruct Hsome.
Qed.

(** However many runs the loop makes and however they end, it never adds
    or changes an object, and the objects it removes were all under the
    prefix: an object outside the prefix is in the bucket afterwards
    exactly as before. *)
Theorem garbageCollect_touches_only_the_prefix (cases : list selected)
    (prefix : string) (b : Bucket.t) :
  Z.of_nat (size (Bucket.objects b)) < 2 ^ 64 ->
  let b' := (garbageCollect cases prefix b).1.1 in
  (forall name o, Bucket.objects b' !! name = Some o ->
                  Bucket.objects b !! name = Some o) /\
  (forall name, String.prefix prefix name = false ->
                Bucket.objects b' !! name = Bucket.objects b !! name).
Proof.
  intros Hsize. cbv zeta. unfold garbageCollect.
  destruct (garbageCollect_loop_safe prefix cases b Hsize) as [Hsafe _].
  cbv zeta in Hsafe.
  destruct (garbageCollect_loop cases prefix b) as [[b' events] returned].
  cbn in *. split.
  - intros name o Ho.
    destruct (Hsafe name) as [Heq | (Hnone & _)]; congruence.
  - intros name Hp.
    destruct (Hsafe name) as [Heq | (_ & Hp' & _)]; congruence.
Qed.

Lemma garbageCollect_touches_only_the_prefix_witness :
  let b' := (garbageCollect failing_cases "data/" nothing_to_collect).1.1 in
  is_Some (Bucket.objects b' !! ".gcsfuse_tmp/5m").
Proof.
  cbv zeta.
  destruct (garbageCollect_touches_only_the_prefix failing_cases "data/"
              nothing_to_collect) as [_ Hout]; [vm_compute; reflexivity|].
  rewrite Hout by reflexivity. vm_compute. eauto.
Defined.

(** * Properties of the monitor of TCP connections *)

Lemma int64_is_int64 x : is_int64 (int64 x).
Proof.
  unfold is_int64, int64.
  pose proof (Z.mod_pos_bound (x + 2 ^ 63) (2 ^ 64)). lia.
Qed.

Lemma int64_add_l x y : int64 (int64 x + y) = int64 (x + y).
Proof.
  unfold int64. f_equal.
  replace ((x + 2 ^ 63) mod 2 ^ 64 - 2 ^ 63 + y + 2 ^ 63)
    with ((x + 2 ^ 63) mod 2 ^ 64 + y) by lia.
  rewrite Zplus_mod_idemp_l. f_equal. lia.
Qed.

(** [strings.Split] never returns an empty slice. *)
Lemma strings_Split_cons s sep :
  exists header body, strings_Split s sep = header :: body.
Proof.
  induction s as [|c s (h & b & IH)]; cbn [strings_Split]; [eauto|].
  destruct (Ascii.eqb c sep); [eauto|]. rewrite IH. eauto.
Qed.

Lemma strings_Split_header header rest sep :
  (forall c, In c (String.list_ascii_of_string header) -> c <> sep) ->
  strings_Split (header +:+ String sep rest) sep
  = header :: strings_Split rest sep.
Proof.
  induction header as [|c header IH]; intros Hno.
  - change (strings_Split (String sep rest) sep = "" :: strings_Split rest sep).
    cbn [strings_Split]. by rewrite Ascii.eqb_refl.
  - change (strings_Split (String c (header +:+ String sep rest)) sep
            = String c header :: strings_Split rest sep).
    cbn [strings_Split].
    destruct (Ascii.eqb_spec c sep) as [->|Hne].
    + exfalso. apply (Hno sep); [by left | done].
    + rewrite IH; [done|]. intros d Hd. apply Hno. by right.
Qed.

Lemma strings_Split_no_separator s sep :
  (forall c, In c (String.list_ascii_of_string s) -> c <> sep) ->
  strings_Split s sep = [s].
Proof.
  induction s as [|c s IH]; intros Hno; cbn [strings_Split]; [done|].
  destruct (Ascii.eqb_spec c sep) as [->|Hne].
  - exfalso. apply (Hno sep); [by left | done].
  - rewrite IH; [done|]. intros d Hd. apply Hno. by right.
Qed.


Section MonitorFacts.

Variable strings_Fields : string -> list string.

(** The counting loop adds to each counter the number of lines of its
    kind, in 64-bit arithmetic; a line of fewer than four fields adds to
    neither. *)
Lemma count_connections_spec lines : forall stats,
  is_int64 (TCPStats.Active stats) -> is_int64 (TCPStats.Idle stats) ->
  count_connections strings_Fields lines stats
  = TCPStats.mk
      (int64 (TCPStats.Active stats
              + Z.of_nat (established strings_Fields lines)))
      (int64 (TCPStats.Idle stats
              + Z.of_nat (other_states strings_Fields lines))).
Proof.
  unfold established, other_states.
  induction lines as [|line lines IH]; intros [a i] Ha Hi.
  - cbn in *. rewrite !Z.add_0_r, !int64_small by done. done.
  - cbn [count_connections List.filter].
    destruct (length (strings_Fields line) <? 4)%nat eqn:Hlen.
    { assert (is_established strings_Fields line = false) as ->
        by (unfold is_established, has_state; by rewrite Hlen).
      assert (has_state strings_Fields line = false) as ->
        by (unfold has_state; by rewrite Hlen).
      cbn [andb]. by apply IH. }
    assert (Hhas : has_state strings_Fields line = true)
      by (unfold has_state; by rewrite Hlen).
    destruct (strings_Fields line !! 3%nat) as [state|] eqn:Hst.
    + destruct (decide (state = "01")) as [->|Hne].
      * assert (is_established strings_Fields line = true) as ->
          by (unfold is_established; rewrite Hhas, Hst; done).
        rewrite Hhas, bool_decide_true by done. cbn [negb andb length].
        rewrite IH by (cbn; auto using int64_is_int64).
        cbn [TCPStats.Active TCPStats.Idle].
        rewrite int64_add_l. do 2 f_equal. lia.
      * assert (is_established strings_Fields line = false) as ->.
        { unfold is_established. rewrite Hhas, Hst.
          rewrite bool_decide_false by congruence. done. }
        rewrite Hhas, bool_decide_false by done. cbn [negb andb length].
        rewrite IH by (cbn; auto using int64_is_int64).
        cbn [TCPStats.Active TCPStats.Idle].
        rewrite int64_add_l. do 2 f_equal. lia.
    + apply lookup_ge_None in Hst. apply Nat.ltb_ge in Hlen. lia.
Qed.

End MonitorFacts.

Lemma established_other_states_le strings_Fields lines :
  (established strings_Fields lines + other_states strings_Fields lines
   <= length lines)%nat.
Proof.
  unfold established, other_states.
  induction lines as [|line lines IH]; cbn; [done|].
  destruct (is_established strings_Fields line);
    destruct (has_state strings_Fields line); cbn; lia.
Qed.

Lemma connection_stats_Some strings_Fields data :
  exists stats, connection_stats strings_Fields data = Some stats.
Proof.
  unfold connection_stats.
  destruct (strings_Split_cons data newline) as (header & body & ->). eauto.
Qed.

(** One reading never panics, whatever the file holds: the text is cut at
    its newlines, the first line is set aside, and of the lines after it
    those with at least four fields are counted, as active when the fourth
    field is "01" and as idle otherwise; lines with fewer fields, blank
    ones included, count as neither.  The counters are 64-bit integers, and
    exact as long as the file has fewer than 2^63 lines. *)
Theorem connection_stats_counts (strings_Fields : string -> list string)
    (data : string) :
  exists header body stats,
    strings_Split data newline = header :: body /\
    connection_stats strings_Fields data = Some stats /\
    TCPStats.Active stats = int64 (Z.of_nat (established strings_Fields body)) /\
    TCPStats.Idle stats = int64 (Z.of_nat (other_states strings_Fields body)) /\
    (established strings_Fields body + other_states strings_Fields body
     <= length body)%nat /\
    (Z.of_nat (length body) < 2 ^ 63 ->
     TCPStats.Active stats = Z.of_nat (established strings_Fields body) /\
     TCPStats.Idle stats = Z.of_nat (other_states strings_Fields body) /\
     0 <= TCPStats.Active stats + TCPStats.Idle stats <= Z.of_nat (length body)).
Proof.
  destruct (strings_Split_cons data newline) as (header & body & Hsplit).
  exists header, body. unfold connection_stats. rewrite Hsplit.
  eexists. split; [done|]. split; [reflexivity|].
  rewrite count_connections_spec by (cbn; unfold is_int64; lia).
  cbn [TCPStats.Active TCPStats.Idle]. rewrite !Z.add_0_l.
  pose proof (established_other_states_le strings_Fields body) as Hle.
  do 3 (split; [done|]). intros Hsmall.
  rewrite !int64_small by (unfold is_int64; lia). lia.
Qed.

Lemma connection_stats_counts_witness :
  exists stats,
    connection_stats Fields_ascii proc_net_tcp = Some stats /\
    TCPStats.Active stats = 1 /\ TCPStats.Idle stats = 1.
Proof.
  destruct (connection_stats_counts Fields_ascii proc_net_tcp)
    as (header & body & stats & Hsplit & Hstats & _ & _ & _ & Hexact).
  exists stats. split; [done|].
  vm_compute in Hsplit. injection Hsplit as <- <-.
  destruct Hexact as (-> & -> & _); [vm_compute; reflexivity|].
  split; reflexivity.
Defined.

(** The first line of a reading is never counted, whatever it holds: the
    statistics are those of the text after the first newline.  A reading
    without any newline, the empty one included, gives 0 and 0. *)
Theorem connection_stats_skips_header (strings_Fields : string -> list string)
    (header rest : string) :
  (forall c, In c (String.list_ascii_of_string header) -> c <> newline) ->
  connection_stats strings_Fields (header +:+ String newline rest)
  = Some (count_connections strings_Fields (strings_Split rest newline)
            (TCPStats.mk 0 0)) /\
  connection_stats strings_Fields header = Some (TCPStats.mk 0 0).
Proof.
  intros Hno. unfold connection_stats.
  rewrite (strings_Split_header header rest newline Hno).
  rewrite (strings_Split_no_separator header newline Hno). done.
Qed.

Lemma connection_stats_skips_header_witness :
  connection_stats Fields_ascii
    ("   0: 0100007F:0277 0A00020F:C350 01 00000000" +:+ String newline "")
  = Some (TCPStats.mk 0 0).
Proof.
  destruct (connection_stats_skips_header Fields_ascii
              "   0: 0100007F:0277 0A00020F:C350 01 00000000" "")
    as [-> _]; [|reflexivity].
  intros c Hin. vm_compute in Hin.
  repeat (destruct Hin as [<-|Hin]; [intros H; vm_compute in H; discriminate H|]).
  destruct Hin.
Defined.

Lemma startTCPMonitoring_loop_spec strings_Fields cases :
  exists events returned,
    startTCPMonitoring_loop strings_Fields cases = Some (events, returned) /\
    (returned = true <-> monitor_ctx_Done ∈ cases) /\
    length (List.filter is_monitor_Infof events)
    = length (List.filter is_read (monitor_served cases)) /\
    length (List.filter is_monitor_Errorf events)
    = length (List.filter is_failed_read (monitor_served cases)) /\
    (monitor_Stop ∈ events <-> returned = true) /\
    (forall d, monitor_NewTicker d ∉ events).
Proof.
  induction cases
    as [|[|[data|err]] cases (events & returned & IH & Hret & Hi & He & Hs & Hn)];
    cbn [startTCPMonitoring_loop monitor_served].
  - exists [], false. split; [done|].
    split; [split; [done | by intros ?%elem_of_nil]|].
    do 2 (split; [done|]).
    split; [split; [by intros ?%elem_of_nil | done]|].
    intros d. by intros ?%elem_of_nil.
  - exists [monitor_Stop], true. split; [done|].
    split; [split; intros _; [by left | done]|].
    do 2 (split; [done|]).
    split; [split; intros _; [done | by left]|].
    intros d [?|?%elem_of_nil]%elem_of_cons; done.
  - destruct (connection_stats_Some strings_Fields data) as [stats ->].
    rewrite IH. eexists _, returned. split; [reflexivity|].
    split; [rewrite Hret; split; [by right | by intros [?|?]%elem_of_cons]|].
    cbn. rewrite Hi, He. do 2 (split; [done|]).
    split; [rewrite <- Hs; split; [by intros [?|?]%elem_of_cons | by right]|].
    intros d [?|?]%elem_of_cons; [done | by apply (Hn d)].
  - rewrite IH. eexists _, returned. split; [reflexivity|].
    split; [rewrite Hret; split; [by right | by intros [?|?]%elem_of_cons]|].
    cbn. rewrite Hi, He. do 2 (split; [done|]).
    split; [rewrite <- Hs; split; [by intros [?|?]%elem_of_cons | by right]|].
    intros d [?|?]%elem_of_cons; [done | by apply (Hn d)].
Qed.

(** The monitor never panics.  It creates one ticker, of period 10 seconds;
    at every tick served it reads the file and logs either one line of
    statistics or, when the file cannot be read, one error, and goes on to
    the next tick in both cases; it returns, stopping the ticker, exactly
    when a select finds the context done. *)
Theorem startTCPMonitoring_survives_read_errors
    (strings_Fields : string -> list string) (cases : list monitor_case) :
  exists events returned,
    startTCPMonitoring strings_Fields cases = Some (events, returned) /\
    take 2 events
    = [monitor_Info "TCP Monitoring: goroutine is now running...";
       monitor_NewTicker (10 * 1000000000)] /\
    (forall d, monitor_NewTicker d ∉ drop 2 events) /\
    (returned = true <-> monitor_ctx_Done ∈ cases) /\
    (monitor_Stop ∈ events <-> returned = true) /\
    length (List.filter is_monitor_Infof events)
    = length (List.filter is_read (monitor_served cases)) /\
    length (List.filter is_monitor_Errorf events)
    = length (List.filter is_failed_read (monitor_served cases)) /\
    (monitor_ctx_Done ∉ cases ->
     (length (List.filter is_monitor_Infof events)
      + length (List.filter is_monitor_Errorf events))%nat = length cases).
Proof.
  destruct (startTCPMonitoring_loop_spec strings_Fields cases)
    as (events & returned & Hloop & Hret & Hi & He & Hs & Hn).
  unfold startTCPMonitoring. rewrite Hloop.
  eexists _, returned. split; [reflexivity|].
  split; [reflexivity|]. split; [exact Hn|]. split; [done|].
  split.
  { rewrite <- Hs. split; [|by do 2 right].
    intros [?|[?|?]%elem_of_cons]%elem_of_cons; done. }
  cbn. rewrite Hi, He. do 2 (split; [done|]).
  intros Hnone. clear -Hnone.
  induction cases as [|[|[data|err]] cases IH]; cbn; try done.
  - destruct Hnone. by left.
  - f_equal. apply IH. intros ?. apply Hnone. by right.
  - rewrite Nat.add_succ_r. f_equal. apply IH. intros ?. apply Hnone. by right.
Qed.

Lemma startTCPMonitoring_survives_read_errors_witness :
  startTCPMonitoring Fields_ascii
    [monitor_tick (Fail (errors_New "permission denied"));
     monitor_tick (Ok proc_net_tcp);
     monitor_ctx_Done;
     monitor_tick (Ok proc_net_tcp)]
  = Some ([monitor_Info "TCP Monitoring: goroutine is now running...";
           monitor_NewTicker 10000000000;
           monitor_Errorf (errors_New "permission denied");
           monitor_Infof 1 1;
           monitor_Stop], true).
Proof.
  destruct (startTCPMonitoring_survives_read_errors Fields_ascii
              [monitor_tick (Fail (errors_New "permission denied"));
               monitor_tick (Ok proc_net_tcp);
               monitor_ctx_Done;
               monitor_tick (Ok proc_net_tcp)])
    as (events & returned & Hrun & _).
  pose proof Hrun as Hrun'. vm_compute in Hrun'.
  injection Hrun' as <- <-. exact Hrun.
Defined.
